(** * The transfer engine of the data-transfer package

    A shallow embedding of the [TransferEngine] class (the second document of
    [src/packages/plugins/users-permissions/server/services/jwt.js]) and of the
    options object its caller builds, followed by the properties of the
    progress model, the integrity check, the stage functions and
    [transfer()]. *)

From Stdlib Require Import String Ascii List Arith Lia.
From Stdlib Require DecimalString DecimalNat DecimalFacts.
From stdpp Require Import gmap strings list fin_maps.

Local Open Scope string_scope.
Local Open Scope list_scope.

(** ** Data model *)

(** [TransferStage]: the five stage names the engine passes around
    (['schemas'], ['entities'], ['links'], ['media'], ['configuration']). *)
Inductive TransferStage := schemas | entities | links | media | configuration.

#[global] Instance TransferStage_eq_dec : EqDecision TransferStage.
Proof. solve_decision. Defined.

Definition stage_index (s : TransferStage) : nat :=
  match s with
  | schemas => 0 | entities => 1 | links => 2 | media => 3 | configuration => 4
  end.

Definition stage_of_index (n : nat) : option TransferStage :=
  match n with
  | 0 => Some schemas | 1 => Some entities | 2 => Some links
  | 3 => Some media | 4 => Some configuration | _ => None
  end.

#[global] Instance TransferStage_countable : Countable TransferStage.
Proof.
  apply (inj_countable stage_index stage_of_index).
  intros []; reflexivity.
Defined.

(** The stage name as it is spliced into the error messages. *)
Definition stage_name (s : TransferStage) : string :=
  match s with
  | schemas => "schemas"
  | entities => "entities"
  | links => "links"
  | media => "media"
  | configuration => "configuration"
  end.

(** A streamed item ([data: any]) as far as the engine looks at it:
    [json_length] is [JSON.stringify(data).length], and [own] gives the own
    properties of [data] by name, their values taken to be strings (as the
    type of an entity is). The engine looks one up with
    [_.has(aggregateKey, data)], the own-property test for a name without
    dots and brackets such as ['type'], and uses its value as the name of a
    bucket. *)
Record Item := mkItem {
  json_length : nat;
  own : gmap string string
}.

(** [{ count, bytes }] of one aggregate bucket. *)
Record Bucket := mkBucket {
  b_count : nat;
  b_bytes : nat
}.

(** One entry of [TransferProgress]: [{ count, bytes, aggregates? }]. *)
Record ProgressEntry := mkEntry {
  count : nat;
  bytes : nat;
  aggregates : option (gmap string Bucket)
}.

Abbreviation TransferProgress := (gmap TransferStage ProgressEntry).

Definition set_count (f : nat -> nat) (e : ProgressEntry) : ProgressEntry :=
  {| count := f (count e); bytes := bytes e; aggregates := aggregates e |}.

Definition set_bytes (f : nat -> nat) (e : ProgressEntry) : ProgressEntry :=
  {| count := count e; bytes := f (bytes e); aggregates := aggregates e |}.

Definition set_aggregates
    (f : option (gmap string Bucket) -> option (gmap string Bucket))
    (e : ProgressEntry) : ProgressEntry :=
  {| count := count e; bytes := bytes e; aggregates := f (aggregates e) |}.

Definition set_b_count (f : nat -> nat) (b : Bucket) : Bucket :=
  {| b_count := f (b_count b); b_bytes := b_bytes b |}.

Definition set_b_bytes (f : nat -> nat) (b : Bucket) : Bucket :=
  {| b_count := b_count b; b_bytes := f (b_bytes b) |}.

(** JavaScript truthiness of a string: the empty string is falsy. *)
Definition truthy (s : string) : bool :=
  match s with
  | EmptyString => false
  | String _ _ => true
  end.

(** [_.has(key, object)] on an object used as a map. *)
Definition has {K V} `{Countable K} (k : K) (m : gmap K V) : bool :=
  bool_decide (is_Some (m !! k)).

(** ** Progress model: [#incrementTransferProgress] *)

(** The aggregate part (the body of the [if (aggregateKey && _.has(...))]),
    one definition per statement. *)
Definition ensure_aggregates (e : ProgressEntry) : ProgressEntry :=
  match aggregates e with
  | Some _ => e
  | None => set_aggregates (fun _ => Some ∅) e
  end.

(** [if (!_.has(aggKeyValue, aggregates)) aggregates[aggKeyValue] = { count:
    0, bytes: 0 }], with [aggregates] as the map of its own properties. The
    assignment creates an own property, except under the name ['__proto__']:
    there it replaces the prototype of [aggregates], the own properties stay
    as they are, and the two increments that follow count on that prototype.
    [_.has] is taken as the own-property test, which is what lodash does for
    the values [keyed] below; for another value lodash may find a path
    through a bucket that exists (the value ['a.count'] next to a bucket
    ['a']), and the increment that follows then throws a [TypeError], which
    this definition does not follow. *)
Definition ensure_bucket (aggKeyValue : string) (a : gmap string Bucket)
    : gmap string Bucket :=
  if has aggKeyValue a then a
  else if bool_decide (aggKeyValue = "__proto__") then a
  else <[aggKeyValue := {| b_count := 0; b_bytes := 0 |}]> a.

Definition on_aggregates (f : gmap string Bucket -> gmap string Bucket)
    (e : ProgressEntry) : ProgressEntry :=
  set_aggregates (fmap f) e.

Definition incrementTransferProgress
    (name : TransferStage) (data : Item) (aggregateKey : option string)
    (tp : TransferProgress) : TransferProgress :=
  let tp :=
    if has name tp then tp
    else <[name := {| count := 0; bytes := 0; aggregates := None |}]> tp in
  let tp := alter (set_count (fun c => c + 1)) name tp in
  let size := json_length data in
  let tp := alter (set_bytes (fun b => b + size)) name tp in
  match aggregateKey with
  | Some key =>
      if truthy key then
        match own data !! key with
        | Some aggKeyValue =>
            let tp := alter ensure_aggregates name tp in
            let tp := alter (on_aggregates (ensure_bucket aggKeyValue)) name tp in
            let tp :=
              alter (on_aggregates
                       (alter (set_b_count (fun c => c + 1)) aggKeyValue))
                    name tp in
            alter (on_aggregates
                     (alter (set_b_bytes (fun b => b + size)) aggKeyValue))
                  name tp
        | None => tp
        end
      else tp
  | None => tp
  end.

(** ** Integrity checker: [assertStrapiVersionIntegrity] *)

(** [ITransferEngineOptions], with the three fields its caller sets (the
    export command builds [{ strategy, versionMatching, exclude }]); the
    values are the strings the command line gave. *)
Record Options := mkOptions {
  strategy : string;
  versionMatching : string;
  exclude : list string
}.

(** A JavaScript [Error] with its message. *)
Record Error := mkError { message : string }.

#[global] Instance Error_eq_dec : EqDecision Error.
Proof. solve_decision. Defined.

(** What a call gives back: a value, or a thrown error (a rejected promise). *)
Inductive Outcome (A : Type) :=
| Returned (a : A)
| Thrown (e : Error).
Arguments Returned {A} a.
Arguments Thrown {A} e.

(** [s.split('.')]: the fields between the dots, at least one. *)
Fixpoint split_dot (s : string) : list string :=
  match s with
  | EmptyString => [EmptyString]
  | String c rest =>
      if Ascii.eqb c "."%char then EmptyString :: split_dot rest
      else match split_dot rest with
           | tok :: toks => String c tok :: toks
           | [] => [String c EmptyString]
           end
  end.

(** Truthiness of an element taken out of an array of booleans by
    destructuring: a missing element is [undefined]. *)
Definition js_true (b : option bool) : bool :=
  match b with
  | Some true => true
  | _ => false
  end.

Definition mismatch_message (strategy sourceVersion destinationVersion : string)
    : string :=
  "Strapi versions doesn't match (" +:+ strategy +:+ " check): "
    +:+ sourceVersion +:+ " does not match with " +:+ destinationVersion +:+ " ".

Definition assertStrapiVersionIntegrity (options : Options)
    (sourceVersion destinationVersion : option string) : Outcome unit :=
  let strategy := versionMatching options in
  match sourceVersion, destinationVersion with
  | Some sv, Some dv =>
      if negb (truthy sv) || negb (truthy dv) then Returned tt
      else if bool_decide (strategy = "ignore") then Returned tt
      else if bool_decide (strategy = "exact") && bool_decide (sv = dv)
      then Returned tt
      else
        let sourceTokens := split_dot sv in
        let destinationTokens := split_dot dv in
        let matches :=
          imap (fun index value =>
                  bool_decide (destinationTokens !! index = Some value))
               sourceTokens in
        let major := js_true (matches !! 0) in
        let minor := js_true (matches !! 1) in
        let patch := js_true (matches !! 2) in
        if (bool_decide (strategy = "major") && major)
           || (bool_decide (strategy = "minor") && major && minor)
           || (bool_decide (strategy = "patch") && major && minor && patch)
        then Returned tt
        else Thrown (mkError (mismatch_message strategy sv dv))
  | _, _ => Returned tt
  end.

(** ** The engine's world: progress, event feed, console *)

Inductive EventType := Start | Progress | Complete.

#[global] Instance EventType_eq_dec : EqDecision EventType.
Proof. solve_decision. Defined.

(** An object written to [#progressStream]. Its [data] field is a reference
    to the engine's one [transferProgress] object; [ev_data] is what that
    object holds at the moment of the write. *)
Record ProgressEvent := mkEvent {
  ev_type : EventType;
  ev_name : TransferStage;
  ev_data : TransferProgress
}.

Inductive LogLine :=
| ConsoleError (args : list string)
| ConsoleWarn (args : list string).

Record World := mkWorld {
  transferProgress : TransferProgress;
  progressStream : list ProgressEvent;
  console : list LogLine
}.

(** A fresh engine: [transferProgress = {}], nothing written yet. *)
Definition initial : World :=
  {| transferProgress := ∅; progressStream := []; console := [] |}.

(** Code that runs in the world and returns or throws; what was written
    before a throw stays written. *)
Definition M (A : Type) : Type := World -> Outcome A * World.

Definition ret {A} (a : A) : M A := fun w => (Returned a, w).

Definition throw {A} (e : Error) : M A := fun w => (Thrown e, w).

Definition bind {A B} (m : M A) (k : A -> M B) : M B :=
  fun w =>
    match m w with
    | (Returned a, w') => k a w'
    | (Thrown e, w') => (Thrown e, w')
    end.

(** [try { body } catch (e) { handler(e) }]. *)
Definition try_catch {A} (body : M A) (handler : Error -> M A) : M A :=
  fun w =>
    match body w with
    | (Returned a, w') => (Returned a, w')
    | (Thrown e, w') => handler e w'
    end.

(** The result of a call that does not touch the engine's world. *)
Definition lift {A} (o : Outcome A) : M A := fun w => (o, w).

Declare Scope engine_scope.
Delimit Scope engine_scope with engine.
Notation "x <- m ;; k" := (bind m (fun x => k))
  (at level 100, m at next level, right associativity) : engine_scope.
Notation "m ;; k" := (bind m (fun _ => k))
  (at level 100, right associativity) : engine_scope.
Local Open Scope engine_scope.

Fixpoint for_each {A} (f : A -> M unit) (l : list A) : M unit :=
  match l with
  | [] => ret tt
  | x :: rest => f x ;; for_each f rest
  end.

Definition modify_progress (f : TransferProgress -> TransferProgress) : M unit :=
  fun w =>
    (Returned tt,
     {| transferProgress := f (transferProgress w);
        progressStream := progressStream w;
        console := console w |}).

(** [this.#progressStream.write({ type, name, data: this.transferProgress })]. *)
Definition write_event (type : EventType) (name : TransferStage) : M unit :=
  fun w =>
    (Returned tt,
     {| transferProgress := transferProgress w;
        progressStream :=
          progressStream w
            ++ [{| ev_type := type; ev_name := name;
                   ev_data := transferProgress w |}];
        console := console w |}).

Definition log (l : LogLine) : M unit :=
  fun w =>
    (Returned tt,
     {| transferProgress := transferProgress w;
        progressStream := progressStream w;
        console := console w ++ [l] |}).

(** ** Providers *)

(** [getMetadata()] yields [{ strapi?: { version? } }] or nothing. *)
Record StrapiInfo := mkStrapiInfo { version : option string }.
Record Metadata := mkMetadata { strapi : option StrapiInfo }.

(** [metadata?.strapi?.version]. *)
Definition strapi_version (m : Metadata) : option string :=
  match strapi m with
  | Some info => version info
  | None => None
  end.

(** A source-side stream: the items it emits, then ['error'] or the end. *)
Record Readable := mkReadable {
  r_items : list Item;
  r_error : option Error
}.

(** A destination-side stream, as the handlers of a stage see it: with
    [Some (n, e)] its ['error'] comes, with [e], when [n] items have gone
    through the recorder (which runs ahead of the destination by what the
    streams buffer); with [None] it takes every item and emits ['close']
    after the source has ended. A destination that does neither leaves the
    stage pending for ever; there is no such stream here. *)
Record Writable := mkWritable {
  w_error : option (nat * Error)
}.

(** An optional provider method called as [provider.method?.()]: the method
    may be missing; when it is there the call throws or returns, possibly
    nothing. *)
Definition Capability (A : Type) : Type := option (Outcome (option A)).

(** A provider's [results] value, opaque to the engine. *)
Definition ProviderResults : Type := string.

Record SourceProvider := mkSource {
  s_name : string;
  s_results : ProviderResults;
  s_bootstrap : Capability unit;
  s_close : Capability unit;
  s_getMetadata : Outcome (option Metadata);
  streamSchemas : Capability Readable;
  streamEntities : Capability Readable;
  streamLinks : Capability Readable;
  streamConfiguration : Capability Readable
}.

Record DestinationProvider := mkDestination {
  d_name : string;
  d_results : ProviderResults;
  d_bootstrap : Capability unit;
  d_close : Capability unit;
  d_getMetadata : Outcome (option Metadata);
  getSchemasStream : Capability Writable;
  getEntitiesStream : Capability Writable;
  getLinksStream : Capability Writable;
  getConfigurationStream : Capability Writable
}.

(** [await provider.method?.()]. *)
Definition call {A} (c : Capability A) : M (option A) :=
  match c with
  | None => ret None
  | Some o => lift o
  end.

(** ** The engine *)

Record TransferEngine := mkEngine {
  sourceProvider : SourceProvider;
  destinationProvider : DestinationProvider;
  options : Options
}.

Definition createTransferEngine (sourceProvider : SourceProvider)
    (destinationProvider : DestinationProvider) (options : Options)
    : TransferEngine :=
  mkEngine sourceProvider destinationProvider options.

Record TransferResults := mkResults {
  source : ProviderResults;
  destination : ProviderResults
}.

(** The transform of [#countRecorder], applied to one item. *)
Definition countRecorder (name : TransferStage) (aggregateKey : option string)
    (data : Item) : M unit :=
  modify_progress (incrementTransferProgress name data aggregateKey) ;;
  write_event Progress name.

Definition updateStep (type : EventType) (name : TransferStage) : M unit :=
  write_event type name.

(** [Promise.all] of the two optional calls. With one failing call the
    promise rejects with its error. When both fail it rejects with the
    failure that settles first, which is the providers' timing; the model
    takes the source provider's. *)
Definition boostrap (eng : TransferEngine) : M unit :=
  call (s_bootstrap (sourceProvider eng)) ;;
  call (d_bootstrap (destinationProvider eng)) ;;
  ret tt.

Definition close (eng : TransferEngine) : M unit :=
  call (s_close (sourceProvider eng)) ;;
  call (d_close (destinationProvider eng)) ;;
  ret tt.

(** What [assertStrapiVersionIntegrity] throws is an [Error], so the
    [instanceof] test of the [catch] holds and the message is logged. *)
Definition integrityCheck (eng : TransferEngine) : M bool :=
  sourceMetadata <- lift (s_getMetadata (sourceProvider eng)) ;;
  destinationMetadata <- lift (d_getMetadata (destinationProvider eng)) ;;
  match sourceMetadata, destinationMetadata with
  | Some sm, Some dm =>
      match assertStrapiVersionIntegrity (options eng)
              (strapi_version sm) (strapi_version dm) with
      | Returned _ => ret true
      | Thrown error =>
          log (ConsoleError ["Integrity checks failed:"; message error]) ;;
          ret false
      end
  | _, _ => ret true
  end.

(** [inStream.pipe(recorder).pipe(outStream)] up to the moment the promise of
    the stage settles: the items that have gone through the recorder by
    then, and the error that rejects the promise ([None] when the
    destination emits ['close'] after the source has ended). The
    destination's error is the one that rejects when it comes within the
    items of the source. *)
Definition flow (inStream : Readable) (outStream : Writable)
    : list Item * option Error :=
  match w_error outStream with
  | Some (n, e) =>
      if (n <=? length (r_items inStream))%nat
      then (take n (r_items inStream), Some e)
      else (r_items inStream, r_error inStream)
  | None => (r_items inStream, r_error inStream)
  end.

(** The promise each streaming stage returns, and the world when it settles:
    ['error'] on either stream rejects, ['close'] on the destination writes
    the [complete] event and resolves. What the streams do once the promise
    has settled is not followed: a destination that emits ['close'] after
    its ['error'], as a [Writable] of Node does, still has [complete]
    written by the handler of ['close'], after the rejection. *)
Definition piped (stepName : TransferStage) (aggregateKey : option string)
    (inStream : Readable) (outStream : Writable) : M unit :=
  let '(passed, failure) := flow inStream outStream in
  for_each (countRecorder stepName aggregateKey) passed ;;
  match failure with
  | Some e => throw e
  | None => updateStep Complete stepName
  end.

Definition transferSchemas (eng : TransferEngine) : M unit :=
  let stepName := schemas in
  inStream <- call (streamSchemas (sourceProvider eng)) ;;
  outStream <- call (getSchemasStream (destinationProvider eng)) ;;
  match inStream with
  | None =>
      throw (mkError "Unable to transfer schemas, source stream is missing")
  | Some inStream =>
      match outStream with
      | None =>
          throw (mkError
                   "Unable to transfer schemas, destination stream is missing")
      | Some outStream =>
          updateStep Start stepName ;;
          piped stepName None inStream outStream
      end
  end.

Definition transferEntities (eng : TransferEngine) : M unit :=
  let stepName := entities in
  inStream <- call (streamEntities (sourceProvider eng)) ;;
  outStream <- call (getEntitiesStream (destinationProvider eng)) ;;
  match inStream with
  | None =>
      throw (mkError "Unable to transfer entities, source stream is missing")
  | Some inStream =>
      match outStream with
      | None =>
          throw (mkError
                   "Unable to transfer entities, destination stream is missing")
      | Some outStream =>
          updateStep Start stepName ;;
          piped stepName (Some "type") inStream outStream
      end
  end.

Definition transferLinks (eng : TransferEngine) : M unit :=
  let stepName := links in
  inStream <- call (streamLinks (sourceProvider eng)) ;;
  outStream <- call (getLinksStream (destinationProvider eng)) ;;
  match inStream with
  | None =>
      throw (mkError "Unable to transfer links, source stream is missing")
  | Some inStream =>
      match outStream with
      | None =>
          throw (mkError
                   "Unable to transfer links, destination stream is missing")
      | Some outStream =>
          updateStep Start links ;;
          piped stepName None inStream outStream
      end
  end.

Definition transferMedia (eng : TransferEngine) : M unit :=
  let stepName := media in
  updateStep Start stepName ;;
  log (ConsoleWarn ["transferMedia not yet implemented"]) ;;
  updateStep Complete stepName ;;
  ret tt.

Definition transferConfiguration (eng : TransferEngine) : M unit :=
  let stepName := configuration in
  inStream <- call (streamConfiguration (sourceProvider eng)) ;;
  outStream <- call (getConfigurationStream (destinationProvider eng)) ;;
  match inStream with
  | None =>
      throw (mkError
               "Unable to transfer configuration, source stream is missing")
  | Some inStream =>
      match outStream with
      | None =>
          throw (mkError
                   "Unable to transfer configuration, destination stream is missing")
      | Some outStream =>
          updateStep Start stepName ;;
          piped stepName None inStream outStream
      end
  end.

Definition newline : string := String (ascii_of_nat 10) EmptyString.

Definition unable_message (eng : TransferEngine) : string :=
  "Unable to transfer the data between " +:+ s_name (sourceProvider eng)
    +:+ " and " +:+ d_name (destinationProvider eng) +:+ "." +:+ newline
    +:+ "Please refer to the log above for more information.".

Definition transfer (eng : TransferEngine) : M TransferResults :=
  try_catch
    (boostrap eng ;;
     isValidTransfer <- integrityCheck eng ;;
     (if negb isValidTransfer
      then throw (mkError (unable_message eng))
      else ret tt) ;;
     transferSchemas eng ;;
     transferEntities eng ;;
     transferMedia eng ;;
     transferLinks eng ;;
     transferConfiguration eng ;;
     close eng)
    (fun e => throw e) ;;
  ret {| source := s_results (sourceProvider eng);
         destination := d_results (destinationProvider eng) |}.

(** ** Vocabulary of the statements *)

(** The entry a stage has, read as zero counters before its first item. *)
Definition zero_entry : ProgressEntry :=
  {| count := 0; bytes := 0; aggregates := None |}.

Definition zero_bucket : Bucket := {| b_count := 0; b_bytes := 0 |}.

Definition entry_of (tp : TransferProgress) (name : TransferStage)
    : ProgressEntry :=
  default zero_entry (tp !! name).

Definition buckets_of (tp : TransferProgress) (name : TransferStage)
    : gmap string Bucket :=
  default ∅ (aggregates (entry_of tp name)).

Definition bucket_of (tp : TransferProgress) (name : TransferStage)
    (value : string) : Bucket :=
  default zero_bucket (buckets_of tp name !! value).

(** The bucket an item is counted in: the value it carries for the aggregate
    key, when a key is given and the item has it. *)
Definition aggregated (aggregateKey : option string) (data : Item)
    : option string :=
  match aggregateKey with
  | Some key => if truthy key then own data !! key else None
  | None => None
  end.

(** What one call leaves in the entry of its stage. *)
Definition recorded (name : TransferStage) (data : Item)
    (aggregateKey : option string) (tp : TransferProgress) : ProgressEntry :=
  {| count := count (entry_of tp name) + 1;
     bytes := bytes (entry_of tp name) + json_length data;
     aggregates :=
       match aggregated aggregateKey data with
       | Some v =>
           Some (alter (set_b_bytes (fun b => b + json_length data)) v
                   (alter (set_b_count (fun c => c + 1)) v
                      (ensure_bucket v (buckets_of tp name))))
       | None => aggregates (entry_of tp name)
       end |}.

(** Recording a sequence of items, in order. *)
Definition record_all (name : TransferStage) (aggregateKey : option string)
    (items : list Item) (tp : TransferProgress) : TransferProgress :=
  foldl (fun tp data => incrementTransferProgress name data aggregateKey tp)
        tp items.

(** The sum of a counter over all the buckets. *)
Definition sum_by (counter : Bucket -> nat) (a : gmap string Bucket) : nat :=
  map_fold (fun _ b n => counter b + n) 0 a.

Definition sum_count : gmap string Bucket -> nat := sum_by b_count.

Definition sum_bytes : gmap string Bucket -> nat := sum_by b_bytes.

Definition total_length (items : list Item) : nat :=
  foldr (fun data n => json_length data + n) 0 items.

Definition carries (key : string) (data : Item) : Prop :=
  is_Some (own data !! key).

#[global] Instance carries_dec key data : Decision (carries key data).
Proof. unfold carries. apply _. Defined.

(** No counter of [tp] is missing from [tp'] or smaller there. *)
Definition bucket_le (b b' : Bucket) : Prop :=
  b_count b <= b_count b' /\ b_bytes b <= b_bytes b'.

Definition entry_le (e e' : ProgressEntry) : Prop :=
  count e <= count e' /\ bytes e <= bytes e' /\
  forall a, aggregates e = Some a ->
    exists a', aggregates e' = Some a' /\
      forall v b, a !! v = Some b ->
        exists b', a' !! v = Some b' /\ bucket_le b b'.

Definition progress_le (tp tp' : TransferProgress) : Prop :=
  forall name e, tp !! name = Some e ->
    exists e', tp' !! name = Some e' /\ entry_le e e'.

(** The function that runs a stage, its aggregate key, and the two stream
    capabilities it asks for. *)
Definition stage_function (s : TransferStage) : TransferEngine -> M unit :=
  match s with
  | schemas => transferSchemas
  | entities => transferEntities
  | links => transferLinks
  | media => transferMedia
  | configuration => transferConfiguration
  end.

Definition stage_key (s : TransferStage) : option string :=
  match s with
  | entities => Some "type"
  | _ => None
  end.

Definition source_stream (s : TransferStage) (eng : TransferEngine)
    : Capability Readable :=
  match s with
  | schemas => streamSchemas (sourceProvider eng)
  | entities => streamEntities (sourceProvider eng)
  | links => streamLinks (sourceProvider eng)
  | configuration => streamConfiguration (sourceProvider eng)
  | media => None
  end.

Definition destination_stream (s : TransferStage) (eng : TransferEngine)
    : Capability Writable :=
  match s with
  | schemas => getSchemasStream (destinationProvider eng)
  | entities => getEntitiesStream (destinationProvider eng)
  | links => getLinksStream (destinationProvider eng)
  | configuration => getConfigurationStream (destinationProvider eng)
  | media => None
  end.

(** A capability that gives no stream: the method is missing, or it returns
    nothing. *)
Definition absent {A} (c : Capability A) : Prop :=
  c = None \/ c = Some (Returned None).

Definition missing_stream_error (s : TransferStage) (side : string) : Error :=
  mkError ("Unable to transfer " +:+ stage_name s +:+ ", " +:+ side
             +:+ " stream is missing").

(** An event without its data. *)
Definition label (e : ProgressEvent) : EventType * TransferStage :=
  (ev_type e, ev_name e).

(** The events one stage writes when [items] go through its recorder,
    starting from progress [tp]: [start], one [progress] per item, each
    carrying the progress with that item counted, and [complete]. *)
Definition progress_events (s : TransferStage) (items : list Item)
    (tp : TransferProgress) : list ProgressEvent :=
  imap (fun i _ =>
          mkEvent Progress s (record_all s (stage_key s) (take (S i) items) tp))
       items.

Definition stage_block (s : TransferStage) (items : list Item)
    (tp : TransferProgress) : list ProgressEvent :=
  mkEvent Start s tp
    :: progress_events s items tp
    ++ [mkEvent Complete s (record_all s (stage_key s) items tp)].

(** The labels of a block of stage [s] with [n] items. *)
Definition block_labels (s : TransferStage) (n : nat)
    : list (EventType * TransferStage) :=
  (Start, s) :: replicate n (Progress, s) ++ [(Complete, s)].

(** The steps of [transfer()], in the order of the source; the second one is
    the integrity check with the [throw] that follows it. *)
Definition checked (eng : TransferEngine) : M unit :=
  isValidTransfer <- integrityCheck eng ;;
  if negb isValidTransfer
  then throw (mkError (unable_message eng))
  else ret tt.

Definition steps (eng : TransferEngine) : list (M unit) :=
  [boostrap eng; checked eng; transferSchemas eng; transferEntities eng;
   transferMedia eng; transferLinks eng; transferConfiguration eng; close eng].

Fixpoint run_all (l : list (M unit)) : M unit :=
  match l with
  | [] => ret tt
  | m :: rest => m ;; run_all rest
  end.

(** ** Sample providers *)

Definition article (size : nat) : Item :=
  mkItem size {["type" := "api::article.article"]}.

Definition user (size : nat) : Item :=
  mkItem size {["type" := "admin::user"]}.

Definition untyped (size : nat) : Item := mkItem size ∅.

Definition emits (items : list Item) : Capability Readable :=
  Some (Returned (Some (mkReadable items None))).

Definition sink : Capability Writable :=
  Some (Returned (Some (mkWritable None))).

Definition meta (v : string) : Outcome (option Metadata) :=
  Returned (Some (mkMetadata (Some (mkStrapiInfo (Some v))))).

Definition sample_source (v : string) : SourceProvider :=
  {| s_name := "source::local-strapi";
     s_results := "source results";
     s_bootstrap := Some (Returned (Some tt));
     s_close := None;
     s_getMetadata := meta v;
     streamSchemas := emits [untyped 40];
     streamEntities := emits [article 30; user 20; untyped 7; article 12];
     streamLinks := emits [untyped 9; untyped 11];
     streamConfiguration := emits [untyped 5] |}.

Definition sample_destination (v : string) : DestinationProvider :=
  {| d_name := "destination::local-file";
     d_results := "destination results";
     d_bootstrap := None;
     d_close := Some (Returned (Some tt));
     d_getMetadata := meta v;
     getSchemasStream := sink;
     getEntitiesStream := sink;
     getLinksStream := sink;
     getConfigurationStream := sink |}.

Definition sample_engine (matching : string) (excluded : list string)
    (sourceVersion destinationVersion : string) : TransferEngine :=
  createTransferEngine (sample_source sourceVersion)
    (sample_destination destinationVersion)
    {| strategy := "restore"; versionMatching := matching;
       exclude := excluded |}.

(** The same source without [streamLinks]. *)
Definition without_links (p : SourceProvider) : SourceProvider :=
  {| s_name := s_name p; s_results := s_results p;
     s_bootstrap := s_bootstrap p; s_close := s_close p;
     s_getMetadata := s_getMetadata p;
     streamSchemas := streamSchemas p; streamEntities := streamEntities p;
     streamLinks := None; streamConfiguration := streamConfiguration p |}.

(** The four streaming stage functions are one function of the stage name:
    the stage runner. *)
Definition runStage (s : TransferStage) (eng : TransferEngine) : M unit :=
  inStream <- call (source_stream s eng) ;;
  outStream <- call (destination_stream s eng) ;;
  match inStream with
  | None => throw (missing_stream_error s "source")
  | Some inStream =>
      match outStream with
      | None => throw (missing_stream_error s "destination")
      | Some outStream =>
          updateStep Start s ;;
          piped s (stage_key s) inStream outStream
      end
  end.

(** The world after a stage has written its block for [items]. *)
Definition after_stage (s : TransferStage) (items : list Item) (w : World)
    : World :=
  {| transferProgress :=
       record_all s (stage_key s) items (transferProgress w);
     progressStream :=
       progressStream w ++ stage_block s items (transferProgress w);
     console :=
       console w
         ++ match s with
            | media => [ConsoleWarn ["transferMedia not yet implemented"]]
            | _ => []
            end |}.

(** The items the source provider's stream of a stage emits (none for
    [media], which has no stream). *)
Definition stream_items (s : TransferStage) (eng : TransferEngine) : list Item :=
  match source_stream s eng with
  | Some (Returned (Some inStream)) => r_items inStream
  | _ => []
  end.

(** The order in which [transfer()] calls the stage functions. *)
Definition call_order : list TransferStage :=
  [schemas; entities; media; links; configuration].

(** The order the specification gives. *)
Definition spec_order : list TransferStage :=
  [schemas; entities; links; media; configuration].

(** The world after the stages of [order] have run one after the other. *)
Definition after_stages (order : list TransferStage) (eng : TransferEngine)
    (w : World) : World :=
  foldl (fun w s => after_stage s (stream_items s eng) w) w order.

(** The events the stages of [order] write, starting from progress [tp]. *)
Fixpoint trace (order : list TransferStage) (eng : TransferEngine)
    (tp : TransferProgress) : list ProgressEvent :=
  match order with
  | [] => []
  | s :: rest =>
      stage_block s (stream_items s eng) tp
        ++ trace rest eng
             (record_all s (stage_key s) (stream_items s eng) tp)
  end.

(** [labels] is one block per stage of [order], in that order, the block of
    [media] being just its [start] and [complete]. *)
Definition in_order (order : list TransferStage)
    (labels : list (EventType * TransferStage)) : Prop :=
  exists ns : list nat,
    Forall2 (fun s n => s = media -> n = 0) order ns /\
    labels = concat (zip_with block_labels order ns).

(** The stages whose [start] events occur in [labels], in order. *)
Definition starts (labels : list (EventType * TransferStage))
    : list TransferStage :=
  omap (fun l => match fst l with Start => Some (snd l) | _ => None end) labels.

(** Code that never removes or decrements a counter. *)
Definition grows {A} (m : M A) : Prop :=
  forall w, progress_le (transferProgress w) (transferProgress (snd (m w))).

(** The check passes when [assertStrapiVersionIntegrity] returns. *)
Definition passes (options : Options) (sourceVersion destinationVersion : string)
    : Prop :=
  assertStrapiVersionIntegrity options (Some sourceVersion)
    (Some destinationVersion) = Returned tt.

(** Token [i] is equal: both versions have a token at position [i] of their
    dot-separated sequence, and it is the same one. *)
Definition same_token (i : nat) (sourceVersion destinationVersion : string)
    : Prop :=
  exists token,
    split_dot sourceVersion !! i = Some token /\
    split_dot destinationVersion !! i = Some token.

(** A strategy that passes on every pair of identical version strings. *)
Definition passes_on_identical (strategy : string) : Prop :=
  forall conflict excluded v,
    truthy v = true ->
    passes {| strategy := conflict; versionMatching := strategy;
              exclude := excluded |} v v.

Definition with_matching (matching : string) : Options :=
  {| strategy := "restore"; versionMatching := matching; exclude := [] |}.

(** The accepted cases, one per strategy. *)
Definition accepted (strategy sv dv : string) : Prop :=
  strategy = "ignore" \/
  (strategy = "exact" /\ sv = dv) \/
  (strategy = "major" /\ same_token 0 sv dv) \/
  (strategy = "minor" /\ same_token 0 sv dv /\ same_token 1 sv dv) \/
  (strategy = "patch" /\
   same_token 0 sv dv /\ same_token 1 sv dv /\ same_token 2 sv dv).

(** A provider call that, when the method is there, returns. *)
Definition returns {A} (c : Capability A) : Prop :=
  forall e, c <> Some (Thrown e).

(** The steps of [transfer()] before [transferLinks]. *)
Definition steps_before_links (eng : TransferEngine) : list (M unit) :=
  [boostrap eng; checked eng; transferSchemas eng; transferEntities eng;
   transferMedia eng].

(** The world with one more line on the console. *)
Definition logged (l : LogLine) (w : World) : World :=
  {| transferProgress := transferProgress w;
     progressStream := progressStream w;
     console := console w ++ [l] |}.

(** ** The JWT service ([getToken], [verify]) *)

(** [s.split(sep)] for a one-character separator. *)
Fixpoint split_on (sep : ascii) (s : string) : list string :=
  match s with
  | EmptyString => [EmptyString]
  | String c rest =>
      if Ascii.eqb c sep then EmptyString :: split_on sep rest
      else match split_on sep rest with
           | part :: parts => String c part :: parts
           | [] => [String c EmptyString]
           end
  end.

(** How many times a character occurs in a string. *)
Fixpoint occurrences (c : ascii) (s : string) : nat :=
  match s with
  | EmptyString => 0
  | String c' rest => (if Ascii.eqb c' c then 1 else 0) + occurrences c rest
  end.

(** Case folding of the [i] flag, on the letters A to Z. *)
Definition lower (c : ascii) : ascii :=
  let n := nat_of_ascii c in
  if (65 <=? n)%nat && (n <=? 90)%nat then ascii_of_nat (n + 32) else c.

Fixpoint lowercase (s : string) : string :=
  match s with
  | EmptyString => EmptyString
  | String c rest => String (lower c) (lowercase rest)
  end.

(** [/^Bearer$/i.test(scheme)]. *)
Definition is_bearer (scheme : string) : bool :=
  bool_decide (lowercase scheme = "bearer").

(** What [jwt.verify] hands to its callback: an error, or the decoded
    payload, which may be undefined. A payload is an object, here with
    string values. *)
Inductive Verification :=
| Rejected
| Decoded (tokenPayload : option (gmap string string)).

(** What the service uses of its surroundings: the configured secret
    ([plugin.users-permissions.jwtSecret]) and the library's [jwt.verify],
    as a function of the token and the secret. *)
Record Jwt := mkJwt {
  jwtSecret : string;
  jwt_verify : string -> string -> Verification
}.

(** [ctx.request]: the parsed body and query (an undefined one is the empty
    object for [_.assign]) and the headers. *)
Record Request := mkRequest {
  body : gmap string string;
  query : gmap string string;
  header : option (gmap string string)
}.

(** The promise [verify(token)] returns: rejected with [Invalid token.] on
    any error of the library, resolved with the payload, [{}] when the
    library gave none. *)
Definition verify (env : Jwt) (token : string) : Outcome (gmap string string) :=
  match jwt_verify env token (jwtSecret env) with
  | Rejected => Thrown (mkError "Invalid token.")
  | Decoded None => Returned ∅
  | Decoded (Some tokenPayload) => Returned tokenPayload
  end.

Definition invalid_format : Error :=
  mkError
    "Invalid authorization header format. Format is Authorization: Bearer [token]".

Definition no_header : Error := mkError "No authorization header was found".

(** [getToken(ctx)]; a synchronous [throw] and a rejected promise are both
    [Thrown]. [params] is [_.assign({}, body, query)]: the keys of the query
    win. *)
Definition getToken (env : Jwt) (request : Request)
    : Outcome (gmap string string) :=
  let params := query request ∪ body request in
  let authorization :=
    match header request with
    | Some h => h !! "authorization"
    | None => None
    end in
  match authorization with
  | Some (String c rest as authorization) =>
      match split_on " " authorization with
      | [scheme; credentials] =>
          verify env (if is_bearer scheme then credentials else "")
      | _ => Thrown invalid_format
      end
  | _ =>
      match params !! "token" with
      | Some (String c rest as token) => verify env token
      | _ => Thrown no_header
      end
  end.

(** ** The export command: backup names *)

(** [String(n)] for a natural number that is a safe integer (below [2 ^ 53]):
    its decimal digits. A JavaScript number from [1e21] on is written with
    an exponent, which is not modelled. *)
Definition String_of_number (n : nat) : string :=
  DecimalString.NilEmpty.string_of_uint (Nat.to_uint n).

(** Reading a string of decimal digits back. *)
Definition number_of (s : string) : option nat :=
  Nat.of_uint <$> DecimalString.NilEmpty.uint_of_string s.

Definition pad (n : nat) : string :=
  (if (n <? 10)%nat then "0" else "") +:+ String_of_number n.

(** What the getters of a [Date] give. *)
Record DateTime := mkDateTime {
  getFullYear : nat;
  getMonth : nat;
  getDate : nat;
  getHours : nat;
  getMinutes : nat;
  getSeconds : nat
}.

(** [yyyymmddHHMMSS()], as a function of the [new Date()] it reads. *)
Definition yyyymmddHHMMSS (date : DateTime) : string :=
  String_of_number (getFullYear date)
    +:+ pad (getMonth date + 1)
    +:+ pad (getDate date)
    +:+ pad (getHours date)
    +:+ pad (getMinutes date)
    +:+ pad (getSeconds date).

Definition getDefaultExportBackupName (date : DateTime) : string :=
  "backup_" +:+ yyyymmddHHMMSS date.

(** The [file] the export command writes to; [filename] is [None] when the
    argument is not a string. *)
Definition export_file (filename : option string) (date : DateTime) : string :=
  match filename with
  | Some f =>
      if (0 <? String.length f)%nat then f else getDefaultExportBackupName date
  | None => getDefaultExportBackupName date
  end.

(** A date whose getters are in the ranges of a [Date] with a four-digit
    year. *)
Definition calendar (d : DateTime) : Prop :=
  1000 <= getFullYear d < 10 * 1000 /\ getMonth d <= 11 /\
  1 <= getDate d <= 31 /\ getHours d <= 23 /\
  getMinutes d <= 59 /\ getSeconds d <= 59.

(** ** The export command: the totals of the table *)

(** [resultData] when the table is built: the listener stores the [data] of
    every [complete] event, a reference to the engine's [transferProgress],
    and starts from an empty array. *)
Definition resultData (w : World) : TransferProgress :=
  if existsb (fun e => bool_decide (ev_type e = Complete)) (progressStream w)
  then transferProgress w
  else ∅.

(** [totalBytes] and [totalItems] after the loop over the keys of
    [resultData]; the sums do not depend on the order of the keys. *)
Definition totals (data : TransferProgress) : nat * nat :=
  map_fold (fun _ item acc => (fst acc + bytes item, snd acc + 1)) (0, 0) data.

(** The stages that have streams. *)
Definition streaming_stages : list TransferStage :=
  [schemas; entities; links; configuration].

(** A sample service: one token verifies, under the configured secret. *)
Definition sample_jwt : Jwt :=
  {| jwtSecret := "s3cret";
     jwt_verify := fun token secret =>
       if bool_decide (token = "abc.def.ghi") && bool_decide (secret = "s3cret")
       then Decoded (Some {["id" := "7"]})
       else Rejected |}.

(** A request without a usable [authorization] header: no headers, no such
    header, or an empty one. *)
Definition no_authorization (request : Request) : Prop :=
  match header request with
  | None => True
  | Some h => h !! "authorization" = None \/ h !! "authorization" = Some ""
  end.

Definition sample_request (authorization : option string)
    (queryToken bodyToken : option string) : Request :=
  {| body := match bodyToken with
             | Some t => {["token" := t]}
             | None => ∅
             end;
     query := match queryToken with
              | Some t => {["token" := t]}
              | None => ∅
              end;
     header := Some match authorization with
                    | Some a => {["authorization" := a]}
                    | None => ∅
                    end |}.

(** A version that is not there: undefined, or the empty string. *)
Definition absent_version (v : option string) : Prop :=
  v = None \/ v = Some "".

(** The five stages. *)
Definition all_stages : list TransferStage :=
  [schemas; entities; links; media; configuration].

(** An item whose value for [key] is [value]. *)
Definition valued (key value : string) (data : Item) : Prop :=
  own data !! key = Some value.

#[global] Instance valued_dec key value data : Decision (valued key value data).
Proof. unfold valued. apply _. Defined.

(** ** Names that lodash reads as one key *)

(** [_.has(path, object)] reads a string as one key of any object when it
    has no ['.'] and no ['[']. *)
Definition plain (key : string) : bool :=
  (occurrences "." key =? 0)%nat && (occurrences "[" key =? 0)%nat.

(** A value that names a bucket. A string with a dot that is not an own key
    is split into a path; without brackets the path is [value.split('.')],
    and a path finds something in [aggregates] only when it is a bucket
    followed by ['count'] or ['bytes']. So a value without brackets whose
    text after the last dot is not a counter's name is tested as an own key
    whatever the buckets are. ['__proto__'] is left out: assigning it
    creates no own key. *)
Definition keyed (value : string) : bool :=
  negb (bool_decide (value = "__proto__"))
  && (occurrences "[" value =? 0)%nat && (occurrences "]" value =? 0)%nat
  && ((occurrences "." value =? 0)%nat
      || negb (bool_decide
                 (last (split_dot value) ∈ [Some "count"; Some "bytes"]))).

(** An item whose value for [key], when it has one, names a bucket. *)
Definition keyed_item (key : string) (data : Item) : bool :=
  match own data !! key with
  | Some value => keyed value
  | None => true
  end.

(** An item whose type is ['__proto__']. *)
Definition proto (size : nat) : Item :=
  mkItem size {["type" := "__proto__"]}.

(** * Properties *)

(** ** The progress model *)

Lemma has_true {K V} `{Countable K} (k : K) (m : gmap K V) :
  has k m = true <-> is_Some (m !! k).
Proof. unfold has. apply bool_decide_eq_true. Qed.

Lemma has_false {K V} `{Countable K} (k : K) (m : gmap K V) :
  has k m = false <-> m !! k = None.
Proof.
  unfold has. rewrite bool_decide_eq_false. rewrite eq_None_not_Some. tauto.
Qed.

Lemma increment_lookup_eq name data aggregateKey tp :
  incrementTransferProgress name data aggregateKey tp !! name
  = Some (recorded name data aggregateKey tp).
Proof.
  unfold incrementTransferProgress, recorded, aggregated, buckets_of, entry_of.
  destruct (has name tp) eqn:Hhas.
  - apply has_true in Hhas. destruct Hhas as [e He].
    destruct aggregateKey as [key|]; [destruct (truthy key);
      [destruct (own data !! key) as [v|]|]|];
      rewrite ?lookup_alter_eq, He; simpl; try reflexivity.
    destruct e as [c b [a|]]; reflexivity.
  - apply has_false in Hhas.
    destruct aggregateKey as [key|]; [destruct (truthy key);
      [destruct (own data !! key) as [v|]|]|];
      rewrite ?lookup_alter_eq, lookup_insert_eq, Hhas; simpl; reflexivity.
Qed.

Lemma increment_lookup_ne name data aggregateKey tp other :
  other <> name ->
  incrementTransferProgress name data aggregateKey tp !! other = tp !! other.
Proof.
  intros Hne. unfold incrementTransferProgress.
  destruct (has name tp);
    destruct aggregateKey as [key|]; [destruct (truthy key);
      [destruct (own data !! key) as [v|]|]|
     |destruct (truthy key); [destruct (own data !! key) as [v|]|]|];
    rewrite ?lookup_alter_ne, ?lookup_insert_ne by congruence; reflexivity.
Qed.


Lemma increment_insert name data aggregateKey tp :
  incrementTransferProgress name data aggregateKey tp
  = <[name := recorded name data aggregateKey tp]> tp.
Proof.
  apply map_eq. intros other. destruct (decide (other = name)) as [->|Hne].
  - rewrite increment_lookup_eq, lookup_insert_eq. reflexivity.
  - rewrite increment_lookup_ne, lookup_insert_ne by congruence. reflexivity.
Qed.

Lemma sum_by_empty counter : sum_by counter ∅ = 0.
Proof. unfold sum_by. apply map_fold_empty. Qed.

Lemma sum_by_insert_fresh counter v b (a : gmap string Bucket) :
  a !! v = None -> sum_by counter (<[v := b]> a) = counter b + sum_by counter a.
Proof.
  intros Hv. unfold sum_by.
  rewrite (map_fold_insert_L (fun _ b n => counter b + n) 0 v b a);
    [reflexivity| |exact Hv].
  intros. lia.
Qed.

Lemma sum_by_insert_present counter v b b0 (a : gmap string Bucket) :
  a !! v = Some b0 ->
  sum_by counter (<[v := b]> a) + counter b0 = counter b + sum_by counter a.
Proof.
  intros Hv.
  rewrite <- (insert_delete_eq a v b).
  rewrite sum_by_insert_fresh by apply lookup_delete_eq.
  rewrite <- (insert_delete_id a v b0 Hv) at 2.
  rewrite sum_by_insert_fresh by apply lookup_delete_eq. lia.
Qed.

Lemma keyed_not_proto v : keyed v = true -> v <> "__proto__".
Proof.
  unfold keyed. intros H Hv.
  rewrite (bool_decide_eq_true_2 _ Hv) in H. discriminate.
Qed.

Lemma keyed_item_value key data v :
  keyed_item key data = true -> own data !! key = Some v -> keyed v = true.
Proof. unfold keyed_item. intros H Hv. rewrite Hv in H. exact H. Qed.

Lemma ensure_bucket_lookup v (a : gmap string Bucket) :
  v <> "__proto__" ->
  ensure_bucket v a !! v = Some (default zero_bucket (a !! v)).
Proof.
  intros Hv. unfold ensure_bucket. destruct (has v a) eqn:Hhas.
  - apply has_true in Hhas. destruct Hhas as [b ->]. reflexivity.
  - apply has_false in Hhas. rewrite (bool_decide_eq_false_2 _ Hv).
    rewrite lookup_insert_eq, Hhas. reflexivity.
Qed.

Lemma ensure_bucket_present v b (a : gmap string Bucket) :
  a !! v = Some b -> ensure_bucket v a = a.
Proof.
  intros Hb. unfold ensure_bucket.
  assert (Hhas : has v a = true) by (apply has_true; eauto).
  rewrite Hhas. reflexivity.
Qed.

Lemma ensure_bucket_lookup_ne v u (a : gmap string Bucket) :
  u <> v -> ensure_bucket v a !! u = a !! u.
Proof.
  intros Hne. unfold ensure_bucket. destruct (has v a); [reflexivity|].
  destruct (bool_decide (v = "__proto__")); [reflexivity|].
  rewrite lookup_insert_ne by congruence. reflexivity.
Qed.

Lemma ensure_bucket_sum counter v (a : gmap string Bucket) :
  counter zero_bucket = 0 ->
  sum_by counter (ensure_bucket v a) = sum_by counter a.
Proof.
  intros Hz. unfold ensure_bucket. destruct (has v a) eqn:Hhas; [reflexivity|].
  destruct (bool_decide (v = "__proto__")); [reflexivity|].
  apply has_false in Hhas. rewrite sum_by_insert_fresh by exact Hhas.
  fold zero_bucket. lia.
Qed.

(** The bucket map after the three statements on the bucket of [v], for a
    value whose assignment creates an own key. *)
Lemma bumped_insert v size (a : gmap string Bucket) :
  v <> "__proto__" ->
  alter (set_b_bytes (fun b => b + size)) v
    (alter (set_b_count (fun c => c + 1)) v (ensure_bucket v a))
  = <[v := {| b_count := b_count (default zero_bucket (a !! v)) + 1;
              b_bytes := b_bytes (default zero_bucket (a !! v)) + size |}]>
      (ensure_bucket v a).
Proof.
  intros Hv. apply map_eq. intros u. destruct (decide (u = v)) as [->|Hne].
  - rewrite !lookup_alter_eq, ensure_bucket_lookup, lookup_insert_eq by exact Hv.
    reflexivity.
  - rewrite !lookup_alter_ne, lookup_insert_ne by congruence. reflexivity.
Qed.


Lemma bucket_le_refl b : bucket_le b b.
Proof. unfold bucket_le. lia. Qed.

Lemma entry_le_refl e : entry_le e e.
Proof.
  unfold entry_le. repeat split; try lia.
  intros a Ha. exists a. split; [exact Ha|].
  intros v b Hb. exists b. split; [exact Hb|apply bucket_le_refl].
Qed.

Lemma entry_le_trans e1 e2 e3 : entry_le e1 e2 -> entry_le e2 e3 -> entry_le e1 e3.
Proof.
  intros (Hc1 & Hb1 & Ha1) (Hc2 & Hb2 & Ha2). repeat split; try lia.
  intros a Ha. destruct (Ha1 a Ha) as (a' & Ha' & Hin1).
  destruct (Ha2 a' Ha') as (a'' & Ha'' & Hin2).
  exists a''. split; [exact Ha''|].
  intros v b Hb. destruct (Hin1 v b Hb) as (b' & Hb' & Hle1).
  destruct (Hin2 v b' Hb') as (b'' & Hb'' & Hle2).
  exists b''. split; [exact Hb''|]. unfold bucket_le in *. lia.
Qed.

Lemma progress_le_refl tp : progress_le tp tp.
Proof. intros name e He. exists e. split; [exact He|apply entry_le_refl]. Qed.

Lemma progress_le_trans tp1 tp2 tp3 :
  progress_le tp1 tp2 -> progress_le tp2 tp3 -> progress_le tp1 tp3.
Proof.
  intros H12 H23 name e He.
  destruct (H12 name e He) as (e' & He' & Hle1).
  destruct (H23 name e' He') as (e'' & He'' & Hle2).
  exists e''. split; [exact He''|]. eapply entry_le_trans; eassumption.
Qed.

Lemma recorded_le name data aggregateKey tp e :
  tp !! name = Some e -> entry_le e (recorded name data aggregateKey tp).
Proof.
  intros He. unfold entry_le, recorded, buckets_of, entry_of. rewrite He. simpl.
  repeat split; try lia.
  intros a Ha. rewrite Ha. simpl.
  destruct (aggregated aggregateKey data) as [v|].
  - eexists. split; [reflexivity|].
    intros u b Hb. destruct (decide (u = v)) as [->|Hne].
    + rewrite !lookup_alter_eq, (ensure_bucket_present v b a Hb), Hb. simpl.
      eexists. split; [reflexivity|]. unfold bucket_le. simpl. lia.
    + rewrite !lookup_alter_ne, ensure_bucket_lookup_ne by congruence.
      exists b. split; [exact Hb|apply bucket_le_refl].
  - exists a. split; [reflexivity|].
    intros u b Hb. exists b. split; [exact Hb|apply bucket_le_refl].
Qed.

Lemma increment_le name data aggregateKey tp :
  progress_le tp (incrementTransferProgress name data aggregateKey tp).
Proof.
  intros other e He. destruct (decide (other = name)) as [->|Hne].
  - rewrite increment_lookup_eq. eexists. split; [reflexivity|].
    apply recorded_le. exact He.
  - rewrite increment_lookup_ne by exact Hne.
    exists e. split; [exact He|apply entry_le_refl].
Qed.

Lemma record_all_app name aggregateKey items1 items2 tp :
  record_all name aggregateKey (items1 ++ items2) tp
  = record_all name aggregateKey items2 (record_all name aggregateKey items1 tp).
Proof. unfold record_all. apply foldl_app. Qed.

Lemma record_all_le name aggregateKey items tp :
  progress_le tp (record_all name aggregateKey items tp).
Proof.
  revert tp. induction items as [|data items IH]; intros tp; simpl.
  - apply progress_le_refl.
  - eapply progress_le_trans; [apply increment_le|apply IH].
Qed.

Lemma entry_of_increment name data aggregateKey tp :
  entry_of (incrementTransferProgress name data aggregateKey tp) name
  = recorded name data aggregateKey tp.
Proof. unfold entry_of at 1. rewrite increment_lookup_eq. reflexivity. Qed.

Lemma buckets_of_increment name data aggregateKey tp :
  buckets_of (incrementTransferProgress name data aggregateKey tp) name
  = match aggregated aggregateKey data with
    | Some v =>
        alter (set_b_bytes (fun b => b + json_length data)) v
          (alter (set_b_count (fun c => c + 1)) v
             (ensure_bucket v (buckets_of tp name)))
    | None => buckets_of tp name
    end.
Proof.
  unfold buckets_of at 1. rewrite entry_of_increment. unfold recorded. simpl.
  destruct (aggregated aggregateKey data) as [v|]; reflexivity.
Qed.

Lemma buckets_of_increment_keyed name data aggregateKey tp v :
  aggregated aggregateKey data = Some v -> v <> "__proto__" ->
  buckets_of (incrementTransferProgress name data aggregateKey tp) name
  = <[v := {| b_count := b_count (bucket_of tp name v) + 1;
              b_bytes := b_bytes (bucket_of tp name v) + json_length data |}]>
      (ensure_bucket v (buckets_of tp name)).
Proof.
  intros Hagg Hv. rewrite buckets_of_increment, Hagg.
  apply bumped_insert. exact Hv.
Qed.

(** ** Running code in the world *)

Section Running.

Context {A B : Type}.

Lemma bind_returned (m : M A) (k : A -> M B) w a w' :
  m w = (Returned a, w') -> bind m k w = k a w'.
Proof. intros H. unfold bind. rewrite H. reflexivity. Qed.

Lemma bind_thrown (m : M A) (k : A -> M B) w e w' :
  m w = (Thrown e, w') -> bind m k w = (Thrown e, w').
Proof. intros H. unfold bind. rewrite H. reflexivity. Qed.

(** A [catch] that throws what it caught changes nothing. *)
Lemma try_catch_rethrow (m : M A) w :
  try_catch m (fun e => throw e) w = m w.
Proof. unfold try_catch, throw. destruct (m w) as [[a|e] w']; reflexivity. Qed.

End Running.

Lemma world_eta w :
  {| transferProgress := transferProgress w;
     progressStream := progressStream w;
     console := console w |} = w.
Proof. destruct w. reflexivity. Qed.

Lemma call_absent {A} (c : Capability A) w :
  absent c -> call c w = (Returned None, w).
Proof. intros [-> | ->]; reflexivity. Qed.

(** The recorder over a list of items: every item is counted, and one
    [progress] event follows each count. *)
Lemma for_each_countRecorder name aggregateKey items w :
  for_each (countRecorder name aggregateKey) items w
  = (Returned tt,
     {| transferProgress :=
          record_all name aggregateKey items (transferProgress w);
        progressStream :=
          progressStream w
            ++ imap (fun i _ =>
                       mkEvent Progress name
                         (record_all name aggregateKey (take (S i) items)
                            (transferProgress w)))
                    items;
        console := console w |}).
Proof.
  revert w. induction items as [|data items IH]; intros w.
  - simpl. unfold ret. rewrite app_nil_r, world_eta. reflexivity.
  - cbn [for_each]. unfold bind at 1.
    unfold countRecorder at 1, bind, modify_progress, write_event. cbn -[take].
    rewrite IH. cbn -[take]. rewrite <- app_assoc. reflexivity.
Qed.

Lemma piped_run name aggregateKey inStream outStream w :
  piped name aggregateKey inStream outStream w
  = let passed := fst (flow inStream outStream) in
    let tp := record_all name aggregateKey passed (transferProgress w) in
    let events :=
      progressStream w
        ++ imap (fun i _ =>
                   mkEvent Progress name
                     (record_all name aggregateKey (take (S i) passed)
                        (transferProgress w)))
                passed in
    match snd (flow inStream outStream) with
    | Some e =>
        (Thrown e,
         {| transferProgress := tp; progressStream := events;
            console := console w |})
    | None =>
        (Returned tt,
         {| transferProgress := tp;
            progressStream := events ++ [mkEvent Complete name tp];
            console := console w |})
    end.
Proof.
  unfold piped. destruct (flow inStream outStream) as [passed [e|]];
    unfold bind; rewrite for_each_countRecorder; reflexivity.
Qed.

(** When the pipeline ends without an error, every item of the source went
    through. *)
Lemma flow_closed inStream outStream :
  snd (flow inStream outStream) = None ->
  fst (flow inStream outStream) = r_items inStream.
Proof.
  unfold flow. destruct (w_error outStream) as [[n e]|]; [|reflexivity].
  destruct (n <=? length (r_items inStream))%nat; [discriminate|reflexivity].
Qed.

(** ** The stage functions *)

Lemma stage_function_runStage s eng :
  s <> media -> stage_function s eng = runStage s eng.
Proof. destruct s; intros Hs; try reflexivity. congruence. Qed.

Lemma transferMedia_run eng w :
  transferMedia eng w = (Returned tt, after_stage media [] w).
Proof.
  unfold transferMedia, after_stage, bind, updateStep, write_event, log, ret.
  cbn. rewrite <- !app_assoc. reflexivity.
Qed.

(** A streaming stage that resolves had both streams, its pipeline ended with
    ['close'], and it wrote the block of the source's items. *)
Lemma runStage_returned s eng w w' :
  s <> media ->
  runStage s eng w = (Returned tt, w') ->
  exists inStream outStream,
    source_stream s eng = Some (Returned (Some inStream)) /\
    destination_stream s eng = Some (Returned (Some outStream)) /\
    snd (flow inStream outStream) = None /\
    w' = after_stage s (r_items inStream) w.
Proof.
  intros Hs. unfold runStage, bind, call, lift, ret, throw.
  destruct (source_stream s eng) as [[[inStream|]|e1]|];
    destruct (destination_stream s eng) as [[[outStream|]|e2]|];
    try discriminate.
  unfold updateStep, write_event. rewrite piped_run. cbn zeta.
  destruct (snd (flow inStream outStream)) as [e|] eqn:Hflow; [discriminate|].
  intros Hw. exists inStream, outStream. repeat split; try assumption.
  injection Hw as <-. rewrite (flow_closed _ _ Hflow).
  unfold after_stage, stage_block, progress_events. cbn.
  destruct s; try congruence; rewrite <- ?app_assoc, ?app_nil_r; reflexivity.
Qed.

Lemma stage_returned s eng w w' :
  stage_function s eng w = (Returned tt, w') ->
  w' = after_stage s (stream_items s eng) w.
Proof.
  destruct (decide (s = media)) as [->|Hs].
  - cbn [stage_function]. rewrite transferMedia_run. intros [= <-]. reflexivity.
  - rewrite (stage_function_runStage s eng Hs). intros Hrun.
    destruct (runStage_returned s eng w w' Hs Hrun)
      as (inStream & outStream & Hin & Hout & Hflow & ->).
    unfold stream_items. rewrite Hin. reflexivity.
Qed.

(** A stage with both streams, neither of which fails, resolves. *)
Lemma runStage_resolves s eng w inStream outStream :
  source_stream s eng = Some (Returned (Some inStream)) ->
  destination_stream s eng = Some (Returned (Some outStream)) ->
  r_error inStream = None -> w_error outStream = None ->
  stage_function s eng w = (Returned tt, after_stage s (r_items inStream) w).
Proof.
  intros Hin Hout Hr Hw.
  assert (Hs : s <> media) by (intros ->; discriminate).
  rewrite (stage_function_runStage s eng Hs).
  unfold runStage, bind, call, lift, ret. rewrite Hin, Hout.
  unfold updateStep, write_event. rewrite piped_run.
  unfold flow. rewrite Hw, Hr. cbn.
  unfold after_stage, stage_block, progress_events. cbn.
  destruct s; try congruence; rewrite <- ?app_assoc, ?app_nil_r; reflexivity.
Qed.


(** ** [transfer()] as the sequence of its steps *)

Lemma run_all_thrown pre m post w w1 e w2 :
  run_all pre w = (Returned tt, w1) ->
  m w1 = (Thrown e, w2) ->
  run_all (pre ++ m :: post) w = (Thrown e, w2).
Proof.
  revert w. induction pre as [|m0 pre IH]; intros w Hpre Hm.
  - injection Hpre as <-. cbn. unfold bind. rewrite Hm. reflexivity.
  - cbn in *. unfold bind in *.
    destruct (m0 w) as [[[]|e0] w0]; [|discriminate].
    apply IH; assumption.
Qed.

(** The [try]/[catch] of [transfer()] rethrows, so the function is its steps
    one after the other, followed by the [return]. *)
Lemma transfer_steps eng w :
  transfer eng w
  = match run_all (steps eng) w with
    | (Returned _, w') =>
        (Returned {| source := s_results (sourceProvider eng);
                     destination := d_results (destinationProvider eng) |},
         w')
    | (Thrown e, w') => (Thrown e, w')
    end.
Proof.
  unfold transfer. unfold bind at 1. rewrite try_catch_rethrow.
  unfold steps, run_all, checked, bind.
  destruct (boostrap eng w) as [[[]|e0] w0]; [|reflexivity].
  destruct (integrityCheck eng w0) as [[[|]|e1] w1]; try reflexivity.
  cbn [negb]. unfold ret.
  destruct (transferSchemas eng w1) as [[[]|e2] w2]; [|reflexivity].
  destruct (transferEntities eng w2) as [[[]|e3] w3]; [|reflexivity].
  destruct (transferMedia eng w3) as [[[]|e4] w4]; [|reflexivity].
  destruct (transferLinks eng w4) as [[[]|e5] w5]; [|reflexivity].
  destruct (transferConfiguration eng w5) as [[[]|e6] w6]; [|reflexivity].
  destruct (close eng w6) as [[[]|e7] w7]; reflexivity.
Qed.

Lemma boostrap_world eng w o w' : boostrap eng w = (o, w') -> w' = w.
Proof.
  unfold boostrap, bind, call, lift, ret.
  destruct (s_bootstrap (sourceProvider eng)) as [[?|?]|];
    destruct (d_bootstrap (destinationProvider eng)) as [[?|?]|];
    intros [= _ <-]; reflexivity.
Qed.

Lemma close_world eng w o w' : close eng w = (o, w') -> w' = w.
Proof.
  unfold close, bind, call, lift, ret.
  destruct (s_close (sourceProvider eng)) as [[?|?]|];
    destruct (d_close (destinationProvider eng)) as [[?|?]|];
    intros [= _ <-]; reflexivity.
Qed.

(** The integrity check writes to the console only. *)
Lemma integrityCheck_world eng w o w' :
  integrityCheck eng w = (o, w') ->
  transferProgress w' = transferProgress w /\
  progressStream w' = progressStream w /\
  (o = Returned true -> w' = w).
Proof.
  unfold integrityCheck, bind, lift, ret, log.
  destruct (s_getMetadata (sourceProvider eng)) as [[sm|]|e1];
    destruct (d_getMetadata (destinationProvider eng)) as [[dm|]|e2];
    try (intros [= <- <-]; repeat split; reflexivity).
  destruct (assertStrapiVersionIntegrity _ _ _) as [[]|err].
  - intros [= <- <-]. repeat split; reflexivity.
  - intros [= <- <-]. repeat split; try reflexivity. discriminate.
Qed.

Lemma checked_returned eng w w' :
  checked eng w = (Returned tt, w') -> w' = w.
Proof.
  unfold checked, bind.
  destruct (integrityCheck eng w) as [[[|]|e] w1] eqn:Hcheck;
    cbn; unfold ret, throw; try discriminate.
  intros [= <-]. apply (integrityCheck_world _ _ _ _ Hcheck). reflexivity.
Qed.



(** In a sequence of steps: the next step returned, and [lem] says which
    world it left. *)
Ltac returned_step lem :=
  match goal with
  | |- context [match ?m ?w with _ => _ end] =>
      let H := fresh "Hstep" in
      destruct (m w) as [[[]|?] ?] eqn:H; [|discriminate];
      apply lem in H as ->
  end.

(** A transfer that resolves has run the five stage functions in the order
    of the calls, each writing its block, and returns the providers'
    results. *)
Lemma transfer_returned eng w r w' :
  transfer eng w = (Returned r, w') ->
  w' = after_stages call_order eng w /\
  r = {| source := s_results (sourceProvider eng);
         destination := d_results (destinationProvider eng) |}.
Proof.
  rewrite transfer_steps. unfold steps, run_all, bind.
  returned_step boostrap_world.
  returned_step checked_returned.
  returned_step (stage_returned schemas).
  returned_step (stage_returned entities).
  returned_step (stage_returned media).
  returned_step (stage_returned links).
  returned_step (stage_returned configuration).
  returned_step close_world.
  unfold ret. intros [= <- <-]. split; reflexivity.
Qed.

Lemma after_stages_events order eng w :
  progressStream (after_stages order eng w)
  = progressStream w ++ trace order eng (transferProgress w).
Proof.
  revert w. induction order as [|s order IH]; intros w.
  - cbn. rewrite app_nil_r. reflexivity.
  - change (after_stages (s :: order) eng w)
      with (after_stages order eng (after_stage s (stream_items s eng) w)).
    rewrite IH. cbn [trace after_stage progressStream transferProgress].
    rewrite <- app_assoc. reflexivity.
Qed.

Lemma imap_labels {X} (f : nat -> X -> ProgressEvent) l (items : list X) :
  (forall i x, label (f i x) = l) ->
  map label (imap f items) = replicate (length items) l.
Proof.
  revert f. induction items as [|x items IH]; intros f Hf; [reflexivity|].
  cbn. rewrite Hf. f_equal. apply IH. intros i y. apply Hf.
Qed.

Lemma stage_block_labels s items tp :
  map label (stage_block s items tp) = block_labels s (length items).
Proof.
  unfold stage_block, block_labels, progress_events. cbn [map].
  rewrite map_app. cbn [map]. unfold label at 1 3. cbn. f_equal. f_equal.
  apply imap_labels. reflexivity.
Qed.

Lemma trace_labels order eng tp :
  map label (trace order eng tp)
  = concat (zip_with block_labels order
              (map (fun s => length (stream_items s eng)) order)).
Proof.
  revert tp. induction order as [|s order IH]; intros tp; [reflexivity|].
  cbn [trace map zip_with concat]. rewrite map_app, stage_block_labels, IH.
  reflexivity.
Qed.

Lemma trace_in_order order eng tp :
  in_order order (map label (trace order eng tp)).
Proof.
  exists (map (fun s => length (stream_items s eng)) order).
  split; [|apply trace_labels].
  induction order as [|s order IH]; constructor; [|exact IH].
  intros ->. reflexivity.
Qed.

Lemma starts_block s n : starts (block_labels s n) = [s].
Proof.
  unfold starts, block_labels. cbn. f_equal.
  induction n as [|n IH]; [reflexivity|exact IH].
Qed.

(** Blocks in the order [order] have their [start] events in that order. *)
Lemma in_order_starts order labels :
  in_order order labels -> starts labels = order.
Proof.
  intros (ns & Hns & ->). clear -Hns. revert ns Hns.
  induction order as [|s order IH]; intros ns Hns.
  - reflexivity.
  - destruct ns as [|n ns]; [inversion Hns|].
    apply Forall2_cons in Hns as [_ Hns].
    cbn [zip_with concat]. unfold starts. rewrite omap_app.
    fold (starts (block_labels s n)). rewrite starts_block.
    cbn. f_equal. apply IH. exact Hns.
Qed.

(** ** Monotonicity of the progress through the engine *)

Lemma grows_same {A} (m : M A) :
  (forall w, transferProgress (snd (m w)) = transferProgress w) -> grows m.
Proof. intros H w. rewrite H. apply progress_le_refl. Qed.

Lemma grows_bind {A B} (m : M A) (k : A -> M B) :
  grows m -> (forall a, grows (k a)) -> grows (bind m k).
Proof.
  intros Hm Hk w. unfold bind. specialize (Hm w).
  destruct (m w) as [[a|e] w1]; [|exact Hm].
  eapply progress_le_trans; [exact Hm|apply Hk].
Qed.

Lemma grows_countRecorder name aggregateKey data :
  grows (countRecorder name aggregateKey data).
Proof. intros w. cbn. apply increment_le. Qed.

Lemma grows_for_each {A} (f : A -> M unit) l :
  (forall x, grows (f x)) -> grows (for_each f l).
Proof.
  intros Hf. induction l as [|x l IH].
  - apply grows_same. reflexivity.
  - cbn. apply grows_bind; [apply Hf|intros _; exact IH].
Qed.





(** ** Recording an item *)

(** C6. The claim fails at the value ['__proto__']. An item that carries the
    aggregate key with that value is counted in its stage, but no bucket is
    created for it and none is incremented: after one such item, and after
    two, the stage has its count and bytes and aggregates without any
    bucket. *)
Theorem proto_gets_no_bucket :
  let tp1 := incrementTransferProgress entities (proto 30) (Some "type") ∅ in
  let tp2 := incrementTransferProgress entities (proto 12) (Some "type") tp1 in
  aggregated (Some "type") (proto 30) = Some "__proto__" /\
  (count (entry_of tp1 entities) = 1 /\ bytes (entry_of tp1 entities) = 30 /\
   aggregates (entry_of tp1 entities) = Some ∅) /\
  (count (entry_of tp2 entities) = 2 /\ bytes (entry_of tp2 entities) = 42 /\
   aggregates (entry_of tp2 entities) = Some ∅) /\
  buckets_of tp2 entities !! "__proto__" = None.
Proof. vm_compute. repeat split; reflexivity. Qed.

(** X13. Recording an item adds exactly 1 to the count of its stage and the
    item's serialized size to its bytes. When the aggregate key is a name
    lodash reads as one key and the item's value for it names a bucket
    ([keyed]), that bucket, read as zero counters when it is not there yet,
    is there afterwards with 1 more count and the same size more bytes; the
    other buckets, and the entries of the other stages, stay as they are,
    and without an aggregated value the buckets stay as they are. No counter
    is removed or decremented by the call. *)
Theorem record_increments name data aggregateKey tp :
  (forall key, aggregateKey = Some key -> plain key = true) ->
  (forall value,
     aggregated aggregateKey data = Some value -> keyed value = true) ->
  let tp' := incrementTransferProgress name data aggregateKey tp in
  (is_Some (tp' !! name) /\
   count (entry_of tp' name) = count (entry_of tp name) + 1 /\
   bytes (entry_of tp' name) = bytes (entry_of tp name) + json_length data) /\
  (forall key value,
     aggregateKey = Some key -> truthy key = true ->
     own data !! key = Some value ->
     is_Some (buckets_of tp' name !! value) /\
     b_count (bucket_of tp' name value)
     = b_count (bucket_of tp name value) + 1 /\
     b_bytes (bucket_of tp' name value)
     = b_bytes (bucket_of tp name value) + json_length data /\
     forall other, other <> value ->
       buckets_of tp' name !! other = buckets_of tp name !! other) /\
  (aggregated aggregateKey data = None ->
   buckets_of tp' name = buckets_of tp name) /\
  (forall other, other <> name -> tp' !! other = tp !! other) /\
  progress_le tp tp'.
Proof.
  intros _ Hkeyed. cbn zeta. split; [|split; [|split; [|split]]].
  - rewrite entry_of_increment, increment_lookup_eq.
    split; [eexists; reflexivity|]. split; reflexivity.
  - intros key value -> Hkey Hvalue.
    assert (Hagg : aggregated (Some key) data = Some value)
      by (unfold aggregated; rewrite Hkey; exact Hvalue).
    unfold bucket_of at 1 3.
    rewrite (buckets_of_increment_keyed name data (Some key) tp value Hagg
               (keyed_not_proto value (Hkeyed value Hagg))).
    rewrite lookup_insert_eq. cbn. repeat split; try reflexivity.
    + eexists; reflexivity.
    + intros other Hother.
      rewrite lookup_insert_ne, ensure_bucket_lookup_ne by congruence.
      reflexivity.
  - intros Hnone. rewrite buckets_of_increment, Hnone. reflexivity.
  - intros other Hother. apply increment_lookup_ne. exact Hother.
  - apply increment_le.
Qed.

Lemma record_increments_witness :
  let tp := incrementTransferProgress entities (article 30) (Some "type") ∅ in
  let tp' := incrementTransferProgress entities (article 12) (Some "type") tp in
  plain "type" = true /\ keyed "api::article.article" = true /\
  own (article 12) !! "type" = Some "api::article.article" /\
  b_count (bucket_of tp' entities "api::article.article") = 2 /\
  b_bytes (bucket_of tp' entities "api::article.article") = 42 /\
  count (entry_of tp' entities) = 2 /\
  bytes (entry_of tp' entities) = 42.
Proof.
  cbn zeta.
  assert (Hplain : forall key, Some "type" = Some key -> plain key = true)
    by (intros key [= <-]; reflexivity).
  assert (Hkeyed : forall value,
            aggregated (Some "type") (article 12) = Some value ->
            keyed value = true)
    by (intros value H; vm_compute in H; injection H as <-; reflexivity).
  destruct (record_increments entities (article 12) (Some "type")
              (incrementTransferProgress entities (article 30) (Some "type") ∅)
              Hplain Hkeyed)
    as ((_ & Hcount & Hbytes) & Hbucket & _).
  destruct (Hbucket "type" "api::article.article" eq_refl eq_refl
              ltac:(vm_compute; reflexivity))
    as (_ & Hbcount & Hbbytes & _).
  split; [reflexivity|]. split; [reflexivity|].
  split; [vm_compute; reflexivity|].
  rewrite Hbcount, Hbbytes, Hcount, Hbytes.
  repeat split; vm_compute; reflexivity.
Defined.

(** ** Aggregates against totals *)

Lemma buckets_sum_increment counter name data aggregateKey tp :
  counter zero_bucket = 0 ->
  (forall v, aggregated aggregateKey data = Some v -> v <> "__proto__") ->
  forall step,
    (forall b, counter {| b_count := b_count b + 1;
                          b_bytes := b_bytes b + json_length data |}
               = counter b + step) ->
    sum_by counter
      (buckets_of (incrementTransferProgress name data aggregateKey tp) name)
    = sum_by counter (buckets_of tp name)
      + match aggregated aggregateKey data with
        | Some _ => step
        | None => 0
        end.
Proof.
  intros Hzero Hkeyed step Hstep.
  destruct (aggregated aggregateKey data) as [v|] eqn:Hagg.
  - rewrite (buckets_of_increment_keyed name data aggregateKey tp v Hagg
               (Hkeyed v eq_refl)).
    pose proof (ensure_bucket_lookup v (buckets_of tp name) (Hkeyed v eq_refl))
      as Hv.
    pose proof (sum_by_insert_present counter v
      {| b_count := b_count (bucket_of tp name v) + 1;
         b_bytes := b_bytes (bucket_of tp name v) + json_length data |}
      _ _ Hv) as Hsum.
    rewrite Hstep in Hsum. rewrite ensure_bucket_sum in Hsum by exact Hzero.
    unfold bucket_of in *. lia.
  - rewrite buckets_of_increment, Hagg. lia.
Qed.

Lemma aggregated_carries key data :
  truthy key = true ->
  (carries key data -> is_Some (aggregated (Some key) data)) /\
  (~ carries key data -> aggregated (Some key) data = None).
Proof.
  intros Hkey. unfold aggregated, carries. rewrite Hkey. split.
  - intros H. exact H.
  - intros H. apply eq_None_not_Some. exact H.
Qed.

Lemma record_all_totals name aggregateKey items tp :
  count (entry_of (record_all name aggregateKey items tp) name)
  = count (entry_of tp name) + length items /\
  bytes (entry_of (record_all name aggregateKey items tp) name)
  = bytes (entry_of tp name) + total_length items.
Proof.
  revert tp. induction items as [|data items IH]; intros tp.
  - cbn. split; lia.
  - change (record_all name aggregateKey (data :: items) tp)
      with (record_all name aggregateKey items
              (incrementTransferProgress name data aggregateKey tp)).
    destruct (IH (incrementTransferProgress name data aggregateKey tp))
      as [-> ->].
    rewrite entry_of_increment. unfold recorded, total_length.
    cbn [count bytes foldr length]. split; lia.
Qed.

Lemma aggregated_keyed key data :
  truthy key = true -> keyed_item key data = true ->
  forall v, aggregated (Some key) data = Some v -> v <> "__proto__".
Proof.
  intros Hkey Hdata v Hv. unfold aggregated in Hv. rewrite Hkey in Hv.
  apply keyed_not_proto. exact (keyed_item_value key data v Hdata Hv).
Qed.

Lemma record_all_sums name key items tp :
  truthy key = true ->
  forallb (keyed_item key) items = true ->
  sum_count (buckets_of (record_all name (Some key) items tp) name)
  = sum_count (buckets_of tp name) + length (filter (carries key) items) /\
  sum_bytes (buckets_of (record_all name (Some key) items tp) name)
  = sum_bytes (buckets_of tp name)
    + total_length (filter (carries key) items).
Proof.
  intros Hkey. revert tp. induction items as [|data items IH]; intros tp Hitems.
  - cbn. split; lia.
  - cbn [forallb] in Hitems. apply andb_prop in Hitems as [Hdata Hitems].
    change (record_all name (Some key) (data :: items) tp)
      with (record_all name (Some key) items
              (incrementTransferProgress name data (Some key) tp)).
    destruct (IH (incrementTransferProgress name data (Some key) tp) Hitems)
      as [-> ->].
    unfold sum_count, sum_bytes.
    rewrite (buckets_sum_increment b_count name data (Some key) tp
               eq_refl (aggregated_keyed key data Hkey Hdata)
               1 (fun b => eq_refl)).
    rewrite (buckets_sum_increment b_bytes name data (Some key) tp
               eq_refl (aggregated_keyed key data Hkey Hdata)
               (json_length data) (fun b => eq_refl)).
    rewrite filter_cons.
    destruct (aggregated_carries key data Hkey) as [Hyes Hno].
    destruct (decide (carries key data)) as [Hc|Hc].
    + destruct (Hyes Hc) as [v ->]. unfold total_length.
      cbn [length foldr]. split; lia.
    + rewrite (Hno Hc). split; lia.
Qed.

(** C7. The claim fails on items whose value for the aggregate key is
    ['__proto__']. They carry the key and are counted in the stage, but in
    no bucket: of three entities that all carry a type, two of them
    ['__proto__'], the stage counts 3 items and 62 bytes, and the buckets
    sum to 1 item and 20 bytes. *)
Theorem proto_items_are_not_summed :
  let items := [proto 30; article 20; proto 12] in
  let tp := record_all entities (Some "type") items ∅ in
  length (filter (carries "type") items) = 3 /\
  total_length (filter (carries "type") items) = 62 /\
  count (entry_of tp entities) = 3 /\
  bytes (entry_of tp entities) = 62 /\
  sum_count (buckets_of tp entities) = 1 /\
  sum_bytes (buckets_of tp entities) = 20.
Proof. vm_compute. repeat split; reflexivity. Qed.

(** X14. Record any sequence of items under a stage with an aggregate key
    that lodash reads as one key, every value the items have for it naming a
    bucket ([keyed]). The counts of all the aggregate buckets then sum to
    what they summed to before plus the number of items that carry the key,
    and their bytes to the former sum plus the sizes of those items, while
    the stage's own count and bytes grow by all the items. For a stage
    recorded from nothing, the sums are the stage's count and bytes as they
    would be had only the items carrying the key been recorded. An item that
    lacks the key leaves every bucket as it is. *)
Theorem aggregates_sum name key items tp :
  truthy key = true ->
  plain key = true ->
  forallb (keyed_item key) items = true ->
  let tp' := record_all name (Some key) items tp in
  let carrying := filter (carries key) items in
  (sum_count (buckets_of tp' name)
   = sum_count (buckets_of tp name) + length carrying /\
   sum_bytes (buckets_of tp' name)
   = sum_bytes (buckets_of tp name) + total_length carrying) /\
  (count (entry_of tp' name) = count (entry_of tp name) + length items /\
   bytes (entry_of tp' name) = bytes (entry_of tp name) + total_length items) /\
  (tp !! name = None ->
   sum_count (buckets_of tp' name)
   = count (entry_of (record_all name (Some key) carrying tp) name) /\
   sum_bytes (buckets_of tp' name)
   = bytes (entry_of (record_all name (Some key) carrying tp) name)) /\
  (forall data tp0,
     ~ carries key data ->
     buckets_of (incrementTransferProgress name data (Some key) tp0) name
     = buckets_of tp0 name).
Proof.
  intros Hkey _ Hitems. cbn zeta. split; [|split; [|split]].
  - apply record_all_sums; assumption.
  - apply record_all_totals.
  - intros Hfresh.
    destruct (record_all_sums name key items tp Hkey Hitems) as [-> ->].
    destruct (record_all_totals name (Some key) (filter (carries key) items) tp)
      as [-> ->].
    unfold buckets_of, entry_of. rewrite Hfresh. cbn.
    unfold sum_count, sum_bytes. rewrite !sum_by_empty. split; reflexivity.
  - intros data tp0 Hlacks. rewrite buckets_of_increment.
    destruct (aggregated_carries key data Hkey) as [_ Hno].
    rewrite (Hno Hlacks). reflexivity.
Qed.

Lemma aggregates_sum_witness :
  let items := [article 30; user 20; untyped 7; article 12] in
  let tp := record_all entities (Some "type") items ∅ in
  truthy "type" = true /\ plain "type" = true /\
  forallb (keyed_item "type") items = true /\
  sum_count (buckets_of tp entities) = 3 /\
  sum_bytes (buckets_of tp entities) = 62 /\
  count (entry_of tp entities) = 4 /\
  bytes (entry_of tp entities) = 69.
Proof.
  cbn zeta.
  assert (Hitems : forallb (keyed_item "type")
                     [article 30; user 20; untyped 7; article 12] = true)
    by (vm_compute; reflexivity).
  destruct (aggregates_sum entities "type"
              [article 30; user 20; untyped 7; article 12] ∅
              eq_refl eq_refl Hitems)
    as ((Hcount & Hbytes) & (Hall & Hsize) & _).
  split; [reflexivity|]. split; [reflexivity|]. split; [exact Hitems|].
  rewrite Hcount, Hbytes, Hall, Hsize.
  repeat split; vm_compute; reflexivity.
Defined.

(** ** The integrity check (C4, C10) *)

Lemma split_dot_cons s : exists token tokens, split_dot s = token :: tokens.
Proof.
  induction s as [|c s (token & tokens & IH)]; cbn.
  - eauto.
  - destruct (Ascii.eqb c "."); [eauto|]. rewrite IH. eauto.
Qed.

(** The destructured element [i] of the array of comparisons is truthy
    exactly when token [i] is equal. *)
Lemma matches_same_token i sv dv :
  js_true
    (imap (fun index value =>
             bool_decide (split_dot dv !! index = Some value))
          (split_dot sv) !! i) = true
  <-> same_token i sv dv.
Proof.
  rewrite list_lookup_imap. unfold same_token.
  destruct (split_dot sv !! i) as [token|]; cbn.
  - destruct (bool_decide_reflect (split_dot dv !! i = Some token)) as [H|H].
    + split; [intros _; eauto|reflexivity].
    + split; [discriminate|]. intros (t & [= <-] & Ht). contradiction.
  - split; [discriminate|]. intros (t & [=] & _).
Qed.

Lemma not_true_false b P : (b = true <-> P) -> ~ P -> b = false.
Proof. destruct b; intuition. Qed.

Lemma assert_outcome options sv dv :
  truthy sv = true -> truthy dv = true ->
  (accepted (versionMatching options) sv dv ->
   assertStrapiVersionIntegrity options (Some sv) (Some dv) = Returned tt) /\
  (~ accepted (versionMatching options) sv dv ->
   assertStrapiVersionIntegrity options (Some sv) (Some dv)
   = Thrown (mkError (mismatch_message (versionMatching options) sv dv))).
Proof.
  intros Hsv Hdv. unfold assertStrapiVersionIntegrity, accepted.
  rewrite Hsv, Hdv. cbn [negb orb].
  pose proof (matches_same_token 0 sv dv) as H0.
  pose proof (matches_same_token 1 sv dv) as H1.
  pose proof (matches_same_token 2 sv dv) as H2.
  cbn zeta.
  destruct (js_true (_ !! 0)); destruct (js_true (_ !! 1));
    destruct (js_true (_ !! 2));
    repeat case_bool_decide; subst; cbn;
    split; try reflexivity; try congruence;
    try (intros Hacc; exfalso; intuition congruence);
    try (intros Hno; exfalso; apply Hno; intuition congruence).
Qed.

Lemma passes_iff_accepted options sv dv :
  truthy sv = true -> truthy dv = true ->
  passes options sv dv <-> accepted (versionMatching options) sv dv.
Proof.
  intros Hsv Hdv. destruct (assert_outcome options sv dv Hsv Hdv) as [Hyes Hno].
  unfold passes. split; [|exact Hyes].
  intros Hpass.
  assert (Hdec : Decision (accepted (versionMatching options) sv dv)).
  { unfold accepted, same_token.
    repeat apply or_dec; repeat apply and_dec; try apply _;
      match goal with
      | |- Decision (exists _, split_dot sv !! ?i = _ /\ _) =>
          destruct (split_dot sv !! i) as [t|];
          [destruct (decide (split_dot dv !! i = Some t));
           [left; eauto|right; intros (? & [= <-] & ?); contradiction]
          |right; intros (? & [=] & _)]
      end. }
  destruct Hdec as [Hacc|Hnacc]; [exact Hacc|].
  rewrite (Hno Hnacc) in Hpass. discriminate.
Qed.

(** C4. For every pair of present (non-empty) version strings: under
    ['exact'] the check passes iff the two strings are identical; under
    ['major'] iff token 0 of the dot-separated versions is equal; under
    ['minor'] iff tokens 0 and 1 are equal; under ['patch'] iff tokens 0, 1
    and 2 are equal; under ['ignore'] it always passes; under any other
    strategy it fails, and whenever it does not pass it throws the error
    naming the strategy and both versions. A token is equal when both
    versions have it and it is the same. In particular exact on
    1.2.3/1.2.3 passes and on 1.2.3/1.2.4 fails, minor on 1.2.3/1.2.9 passes
    and on 1.2.3/1.3.0 fails. *)
Theorem version_matching :
  (forall options sv dv,
     truthy sv = true -> truthy dv = true ->
     let matching := versionMatching options in
     (matching = "exact" -> (passes options sv dv <-> sv = dv)) /\
     (matching = "major" -> (passes options sv dv <-> same_token 0 sv dv)) /\
     (matching = "minor" ->
      (passes options sv dv <-> same_token 0 sv dv /\ same_token 1 sv dv)) /\
     (matching = "patch" ->
      (passes options sv dv <->
       same_token 0 sv dv /\ same_token 1 sv dv /\ same_token 2 sv dv)) /\
     (matching = "ignore" -> passes options sv dv) /\
     (matching ∉ ["ignore"; "exact"; "major"; "minor"; "patch"] ->
      ~ passes options sv dv) /\
     (~ passes options sv dv ->
      assertStrapiVersionIntegrity options (Some sv) (Some dv)
      = Thrown (mkError (mismatch_message matching sv dv)))) /\
  passes (with_matching "exact") "1.2.3" "1.2.3" /\
  ~ passes (with_matching "exact") "1.2.3" "1.2.4" /\
  passes (with_matching "minor") "1.2.3" "1.2.9" /\
  ~ passes (with_matching "minor") "1.2.3" "1.3.0".
Proof.
  split; [|repeat split; try reflexivity; discriminate].
  intros options sv dv Hsv Hdv. cbn zeta.
  pose proof (passes_iff_accepted options sv dv Hsv Hdv) as Hiff.
  unfold accepted in Hiff.
  refine (conj _ (conj _ (conj _ (conj _ (conj _ (conj _ _))))));
    try (intros Hm; rewrite Hiff; clear Hiff).
  - rewrite Hm. intuition congruence.
  - rewrite Hm. intuition congruence.
  - rewrite Hm. intuition congruence.
  - rewrite Hm. intuition congruence.
  - left. exact Hm.
  - intros Hacc. apply Hm.
    destruct Hacc as [H|[[H _]|[[H _]|[[H _]|[H _]]]]];
      rewrite H; repeat constructor.
  - intros Hno. apply (assert_outcome options sv dv Hsv Hdv).
    intros Hacc. apply Hno. apply Hiff. exact Hacc.
Qed.

Lemma short_source_no_token i sv dv :
  length (split_dot sv) <= i -> ~ same_token i sv dv.
Proof.
  intros Hlen (token & Hs & _). apply lookup_lt_Some in Hs. lia.
Qed.

Lemma same_token_head v : same_token 0 v v.
Proof.
  destruct (split_dot_cons v) as (token & tokens & Hv).
  exists token. rewrite Hv. split; reflexivity.
Qed.

(** C10, as amended. Under ['minor'] (respectively ['patch']) the check fails
    for every present source version with fewer than 2 (respectively 3)
    dot-separated tokens, whatever the present destination version, also an
    identical one. The strategies that pass on every pair of identical
    present versions are ['ignore'], ['exact'] and ['major']. *)
Theorem short_versions_fail :
  (forall options sv dv,
     truthy sv = true -> truthy dv = true ->
     (versionMatching options = "minor" ->
      length (split_dot sv) < 2 -> ~ passes options sv dv) /\
     (versionMatching options = "patch" ->
      length (split_dot sv) < 3 -> ~ passes options sv dv)) /\
  (forall strategy,
     passes_on_identical strategy
     <-> strategy ∈ ["ignore"; "exact"; "major"]).
Proof.
  split.
  - intros options sv dv Hsv Hdv.
    pose proof (passes_iff_accepted options sv dv Hsv Hdv) as Hiff.
    unfold accepted in Hiff.
    split; intros Hm Hlen Hpass; apply Hiff in Hpass; rewrite Hm in Hpass.
    + destruct Hpass as [H|[[H _]|[[H _]|[[_ [_ H]]|[H _]]]]];
        try discriminate.
      apply (short_source_no_token 1 sv dv) in H; [exact H|lia].
    + destruct Hpass as [H|[[H _]|[[H _]|[[H _]|[_ [_ [_ H]]]]]]];
        try discriminate.
      apply (short_source_no_token 2 sv dv) in H; [exact H|lia].
  - intros strategy. split.
    + intros Hall. specialize (Hall "restore" [] "1" eq_refl).
      apply passes_iff_accepted in Hall; [|reflexivity|reflexivity].
      cbn [versionMatching] in Hall.
      destruct Hall as [->|[[-> _]|[[-> _]|[[_ [_ H]]|[_ [_ [H _]]]]]]];
        try (repeat constructor; fail).
      * apply (short_source_no_token 1 "1" "1") in H; [contradiction|cbn; lia].
      * apply (short_source_no_token 1 "1" "1") in H; [contradiction|cbn; lia].
    + intros Hin conflict excluded v Hv.
      apply passes_iff_accepted; [exact Hv|exact Hv|].
      cbn [versionMatching]. unfold accepted.
      apply elem_of_cons in Hin as [->|Hin]; [left; reflexivity|].
      apply elem_of_cons in Hin as [->|Hin]; [right; left; split; reflexivity|].
      apply elem_of_cons in Hin as [->|Hin]; [|inversion Hin].
      right; right; left. split; [reflexivity|apply same_token_head].
Qed.

(** C10 as stated fails: ['major'] too passes on every pair of identical
    present versions, so ['ignore'] and ['exact'] are not the only ones. *)
Lemma major_passes_on_identical :
  passes_on_identical "major" /\
  ~ (forall strategy,
       passes_on_identical strategy ->
       strategy = "ignore" \/ strategy = "exact").
Proof.
  assert (Hmajor : passes_on_identical "major").
  { intros conflict excluded v Hv.
    apply passes_iff_accepted; [exact Hv|exact Hv|].
    right; right; left. split; [reflexivity|apply same_token_head]. }
  split; [exact Hmajor|].
  intros Honly. destruct (Honly "major" Hmajor) as [H|H]; discriminate.
Qed.

Lemma short_versions_fail_witness :
  length (split_dot "1") < 2 /\
  ~ passes (with_matching "minor") "1" "1" /\
  ~ passes (with_matching "patch") "1.2" "1.2" /\
  passes_on_identical "major".
Proof.
  split; [cbn; lia|]. split; [|split].
  - apply (proj1 (proj1 short_versions_fail (with_matching "minor") "1" "1"
                     eq_refl eq_refl)); [reflexivity|cbn; lia].
  - apply (proj2 (proj1 short_versions_fail (with_matching "patch") "1.2" "1.2"
                     eq_refl eq_refl)); [reflexivity|cbn; lia].
  - apply (proj2 short_versions_fail "major"). repeat constructor.
Defined.

Lemma version_matching_witness :
  truthy "1.2.3" = true /\
  (passes (with_matching "patch") "1.2.3" "1.2.3.4"
   <-> same_token 0 "1.2.3" "1.2.3.4" /\ same_token 1 "1.2.3" "1.2.3.4"
       /\ same_token 2 "1.2.3" "1.2.3.4") /\
  (passes (with_matching "major") "1.2.3" "2.2.3"
   <-> same_token 0 "1.2.3" "2.2.3").
Proof.
  split; [reflexivity|]. split.
  - destruct (proj1 version_matching (with_matching "patch") "1.2.3" "1.2.3.4"
                eq_refl eq_refl) as (_ & _ & _ & Hpatch & _).
    apply Hpatch. reflexivity.
  - destruct (proj1 version_matching (with_matching "major") "1.2.3" "2.2.3"
                eq_refl eq_refl) as (_ & Hmajor & _).
    apply Hmajor. reflexivity.
Defined.

(** ** The media stage (C9) *)

(** C9. [transferMedia] always resolves; it writes exactly its [start] event
    followed by its [complete] event, both carrying the progress as it was,
    and one warning that it is not implemented; it looks at no provider, and
    it leaves the transfer progress as it was: no entry for [media] appears
    and no counter of any stage changes. *)
Theorem media_is_a_stub eng w :
  transferMedia eng w
  = (Returned tt,
     {| transferProgress := transferProgress w;
        progressStream :=
          progressStream w
            ++ [mkEvent Start media (transferProgress w);
                mkEvent Complete media (transferProgress w)];
        console :=
          console w ++ [ConsoleWarn ["transferMedia not yet implemented"]] |})
  /\ forall eng', transferMedia eng' w = transferMedia eng w.
Proof. split; [apply transferMedia_run|reflexivity]. Qed.

(** ** The events of a stage *)

Lemma progress_events_lookup s items tp i e :
  progress_events s items tp !! i = Some e ->
  e = mkEvent Progress s (record_all s (stage_key s) (take (S i) items) tp).
Proof.
  unfold progress_events. rewrite list_lookup_imap.
  destruct (items !! i); cbn; congruence.
Qed.

(** X15. A stage function that resolves has written, after what was on the
    feed, exactly: one [start] event, which carries the progress as it was
    before any item of the stage was recorded; then one [progress] event per
    item recorded, the event of item [i] carrying the progress with the
    items up to [i] recorded; then one [complete] event, which carries the
    progress with all the items recorded. In a [transfer()] that resolves
    these blocks follow one another, each ending with its [complete] before
    the [start] of the next. And a stage does resolve, with that block
    written for all the items of its source, when both providers give it a
    stream, neither stream fails, and (for the entities) every type names a
    bucket. *)
Theorem stage_events :
  (forall s eng w w',
     stage_function s eng w = (Returned tt, w') ->
     let items := stream_items s eng in
     let tp := transferProgress w in
     progressStream w'
     = progressStream w
         ++ [mkEvent Start s tp]
         ++ progress_events s items tp
         ++ [mkEvent Complete s (record_all s (stage_key s) items tp)] /\
     length (progress_events s items tp) = length items /\
     (forall i e,
        progress_events s items tp !! i = Some e ->
        e = mkEvent Progress s
              (record_all s (stage_key s) (take (S i) items) tp)) /\
     transferProgress w' = record_all s (stage_key s) items tp) /\
  (forall eng w r w',
     transfer eng w = (Returned r, w') ->
     let tp0 := transferProgress w in
     let tp1 := record_all schemas None (stream_items schemas eng) tp0 in
     let tp2 :=
       record_all entities (Some "type") (stream_items entities eng) tp1 in
     let tp3 := record_all links None (stream_items links eng) tp2 in
     progressStream w'
     = progressStream w
         ++ stage_block schemas (stream_items schemas eng) tp0
         ++ stage_block entities (stream_items entities eng) tp1
         ++ stage_block media [] tp2
         ++ stage_block links (stream_items links eng) tp2
         ++ stage_block configuration (stream_items configuration eng) tp3) /\
  (forall s eng w inStream outStream,
     source_stream s eng = Some (Returned (Some inStream)) ->
     destination_stream s eng = Some (Returned (Some outStream)) ->
     r_error inStream = None ->
     w_error outStream = None ->
     (s = entities ->
      forallb (keyed_item "type") (r_items inStream) = true) ->
     stage_function s eng w
     = (Returned tt, after_stage s (r_items inStream) w)).
Proof.
  split; [|split].
  - intros s eng w w' Hrun. cbn zeta. apply stage_returned in Hrun as ->.
    repeat split.
    + unfold progress_events. apply length_imap.
    + apply progress_events_lookup.
  - intros eng w r w' Hrun. cbn zeta.
    apply transfer_returned in Hrun as [-> _].
    rewrite after_stages_events. cbn [call_order trace].
    rewrite app_nil_r. reflexivity.
  - intros s eng w inStream outStream Hin Hout Hr Hw _.
    exact (runStage_resolves s eng w inStream outStream Hin Hout Hr Hw).
Qed.

Lemma stage_events_witness :
  let eng := sample_engine "exact" [] "1.2.3" "1.2.3" in
  fst (transferEntities eng initial) = Returned tt /\
  map label (progressStream (snd (transferEntities eng initial)))
  = [(Start, entities); (Progress, entities); (Progress, entities);
     (Progress, entities); (Progress, entities); (Complete, entities)] /\
  count (entry_of (transferProgress (snd (transferEntities eng initial)))
           entities) = 4.
Proof.
  cbn zeta.
  assert (Hitems : entities = entities ->
            forallb (keyed_item "type")
              [article 30; user 20; untyped 7; article 12] = true)
    by (intros _; vm_compute; reflexivity).
  pose proof (proj2 (proj2 stage_events) entities
                (sample_engine "exact" [] "1.2.3" "1.2.3") initial
                (mkReadable [article 30; user 20; untyped 7; article 12] None)
                (mkWritable None) eq_refl eq_refl eq_refl eq_refl Hitems)
    as Hrun.
  cbn [stage_function r_items] in Hrun.
  destruct (proj1 stage_events entities _ _ _ Hrun)
    as (Hevents & _ & _ & Hprogress).
  rewrite Hrun. cbn [fst snd]. split; [reflexivity|]. split.
  - rewrite Hevents. vm_compute. reflexivity.
  - rewrite Hprogress. vm_compute. reflexivity.
Defined.

(** ** The order of the stages (C1) *)

(** C1, as amended. A [transfer()] that resolves has run the five stages in
    the fixed order schemas, entities, media, links, configuration: what it
    has written to the feed is exactly the block of schemas, then the block
    of entities, then [start(media)], [complete(media)], then the block of
    links, then the block of configuration, each block being the stage's
    [start], its [progress] events and its [complete], with no event of
    another stage inside. *)
Theorem transfer_stage_order eng w r w' :
  transfer eng w = (Returned r, w') ->
  exists new,
    progressStream w' = progressStream w ++ new /\
    in_order call_order (map label new) /\
    starts (map label new) = call_order.
Proof.
  intros Hrun. apply transfer_returned in Hrun as [-> _].
  exists (trace call_order eng (transferProgress w)).
  split; [apply after_stages_events|].
  split; [apply trace_in_order|].
  apply in_order_starts, trace_in_order.
Qed.

Lemma transfer_stage_order_witness :
  let run := transfer (sample_engine "exact" [] "1.2.3" "1.2.3") initial in
  fst run = Returned {| source := "source results";
                        destination := "destination results" |} /\
  exists new,
    progressStream (snd run) = progressStream initial ++ new /\
    in_order call_order (map label new) /\
    starts (map label new) = call_order.
Proof.
  cbn zeta. split; [vm_compute; reflexivity|].
  apply (transfer_stage_order (sample_engine "exact" [] "1.2.3" "1.2.3")
           initial
           {| source := "source results";
              destination := "destination results" |}).
  vm_compute. reflexivity.
Defined.

(** C1 as stated fails: on the sample providers the transfer resolves and
    its events are not in the order schemas, entities, links, media,
    configuration; [start(media)] comes before [start(links)]. *)
Lemma transfer_spec_order_counterexample :
  fst (transfer (sample_engine "exact" [] "1.2.3" "1.2.3") initial)
  = Returned {| source := "source results";
                destination := "destination results" |} /\
  starts (map label
            (progressStream
               (snd (transfer (sample_engine "exact" [] "1.2.3" "1.2.3")
                       initial))))
  = [schemas; entities; media; links; configuration] /\
  ~ in_order spec_order
      (map label
         (progressStream
            (snd (transfer (sample_engine "exact" [] "1.2.3" "1.2.3")
                    initial)))).
Proof.
  split; [vm_compute; reflexivity|]. split; [vm_compute; reflexivity|].
  intros Horder. apply in_order_starts in Horder.
  vm_compute in Horder. discriminate Horder.
Qed.

(** ** The exclude option (C3) *)

Lemma block_labels_start s n : (Start, s) ∈ block_labels s n.
Proof. unfold block_labels. apply elem_of_cons. left. reflexivity. Qed.

Lemma block_labels_complete s n : (Complete, s) ∈ block_labels s n.
Proof.
  unfold block_labels. apply elem_of_cons. right.
  apply elem_of_app. right. apply list_elem_of_singleton. reflexivity.
Qed.

Lemma block_labels_stage s n l : l ∈ block_labels s n -> snd l = s.
Proof.
  unfold block_labels. intros Hl.
  apply elem_of_cons in Hl as [->|Hl]; [reflexivity|].
  apply elem_of_app in Hl as [Hl|Hl].
  - apply elem_of_replicate in Hl as [-> _]. reflexivity.
  - apply list_elem_of_singleton in Hl as ->. reflexivity.
Qed.

Lemma trace_has_stage order eng tp s l :
  s ∈ order ->
  (forall n, l ∈ block_labels s n) ->
  l ∈ map label (trace order eng tp).
Proof.
  intros Hs Hl. revert tp. induction order as [|s0 order IH]; intros tp.
  - inversion Hs.
  - cbn [trace]. rewrite map_app, stage_block_labels. apply elem_of_app.
    apply elem_of_cons in Hs as [->|Hs].
    + left. apply Hl.
    + right. apply IH. exact Hs.
Qed.

Lemma trace_stages order eng tp l :
  l ∈ map label (trace order eng tp) -> snd l ∈ order.
Proof.
  revert tp. induction order as [|s order IH]; intros tp; cbn [trace].
  - cbn. intros H. inversion H.
  - rewrite map_app, stage_block_labels. intros Hl.
    apply elem_of_app in Hl as [Hl|Hl].
    + apply block_labels_stage in Hl as ->. apply elem_of_cons. left.
      reflexivity.
    + apply elem_of_cons. right. apply (IH _ Hl).
Qed.

(** C3, as amended. [transfer()] does not consult the exclude set given at
    construction: with any exclude set it does exactly what it does with an
    empty one, and a transfer that resolves has written the [start] and the
    [complete] event of every one of the five stages, the stages named in
    exclude included. *)
Theorem exclude_is_not_consulted :
  (forall sourceProvider destinationProvider conflict matching excluded w,
     transfer
       (createTransferEngine sourceProvider destinationProvider
          {| strategy := conflict; versionMatching := matching;
             exclude := excluded |}) w
     = transfer
         (createTransferEngine sourceProvider destinationProvider
            {| strategy := conflict; versionMatching := matching;
               exclude := [] |}) w) /\
  (forall eng w r w' s,
     transfer eng w = (Returned r, w') ->
     exists new,
       progressStream w' = progressStream w ++ new /\
       (Start, s) ∈ map label new /\ (Complete, s) ∈ map label new).
Proof.
  split; [reflexivity|].
  intros eng w r w' s Hrun. apply transfer_returned in Hrun as [-> _].
  exists (trace call_order eng (transferProgress w)).
  split; [apply after_stages_events|].
  assert (Hs : s ∈ call_order) by (destruct s; repeat constructor).
  split; apply (trace_has_stage _ _ _ s); try exact Hs; intros n.
  - apply block_labels_start.
  - apply block_labels_complete.
Qed.

(** C3 as stated fails: with ['entities'] in exclude the entities stage is
    run all the same, its [start] and [complete] are on the feed and its
    four items are counted. *)
Lemma exclude_counterexample :
  "entities" ∈ exclude (options (sample_engine "exact" ["entities"]
                                    "1.2.3" "1.2.3")) /\
  fst (transfer (sample_engine "exact" ["entities"] "1.2.3" "1.2.3") initial)
  = Returned {| source := "source results";
                destination := "destination results" |} /\
  filter (fun l => snd l = entities)
    (map label
       (progressStream
          (snd (transfer (sample_engine "exact" ["entities"] "1.2.3" "1.2.3")
                  initial))))
  = [(Start, entities); (Progress, entities); (Progress, entities);
     (Progress, entities); (Progress, entities); (Complete, entities)] /\
  count (entry_of
           (transferProgress
              (snd (transfer (sample_engine "exact" ["entities"]
                                "1.2.3" "1.2.3") initial)))
           entities) = 4.
Proof.
  split; [repeat constructor|].
  split; [vm_compute; reflexivity|].
  split; vm_compute; reflexivity.
Qed.

Lemma exclude_is_not_consulted_witness :
  let eng := sample_engine "exact" ["media"; "links"] "1.2.3" "1.2.3" in
  fst (transfer eng initial)
  = Returned {| source := "source results";
                destination := "destination results" |} /\
  exists new,
    progressStream (snd (transfer eng initial)) = progressStream initial ++ new /\
    (Start, media) ∈ map label new /\ (Complete, media) ∈ map label new.
Proof.
  cbn zeta. split; [vm_compute; reflexivity|].
  apply (proj2 exclude_is_not_consulted
           (sample_engine "exact" ["media"; "links"] "1.2.3" "1.2.3") initial
           {| source := "source results";
              destination := "destination results" |}).
  vm_compute. reflexivity.
Defined.

(** ** Missing stream capabilities (C5) *)

Lemma runStage_missing_source s eng w :
  absent (source_stream s eng) -> returns (destination_stream s eng) ->
  runStage s eng w = (Thrown (missing_stream_error s "source"), w).
Proof.
  intros Hsrc Hdst. unfold runStage, bind. rewrite (call_absent _ _ Hsrc).
  unfold call, lift, ret, throw.
  destruct (destination_stream s eng) as [[[outStream|]|e]|]; try reflexivity.
  destruct (Hdst e). reflexivity.
Qed.

Lemma runStage_missing_destination s eng w inStream :
  source_stream s eng = Some (Returned (Some inStream)) ->
  absent (destination_stream s eng) ->
  runStage s eng w = (Thrown (missing_stream_error s "destination"), w).
Proof.
  intros Hsrc Hdst. unfold runStage, bind. rewrite Hsrc.
  unfold call at 1, lift. rewrite (call_absent _ _ Hdst). reflexivity.
Qed.

Lemma runStage_destination_throws s eng w e :
  absent (source_stream s eng) ->
  destination_stream s eng = Some (Thrown e) ->
  runStage s eng w = (Thrown e, w).
Proof.
  intros Hsrc Hdst. unfold runStage, bind. rewrite (call_absent _ _ Hsrc).
  rewrite Hdst. reflexivity.
Qed.

Lemma run_before_links eng w w1 :
  run_all (steps_before_links eng) w = (Returned tt, w1) ->
  w1 = after_stages [schemas; entities; media] eng w.
Proof.
  unfold steps_before_links, run_all, bind.
  returned_step boostrap_world.
  returned_step checked_returned.
  returned_step (stage_returned schemas).
  returned_step (stage_returned entities).
  returned_step (stage_returned media).
  unfold ret. intros [= <-]. reflexivity.
Qed.

(** C5. For each of the four streaming stages: when the source provider
    gives no stream (the method is missing or returns nothing) the stage
    throws [Unable to transfer <stage>, source stream is missing], and when
    the source gives a stream and the destination provider gives none it
    throws [Unable to transfer <stage>, destination stream is missing]; in
    both cases nothing has been written to the feed and no item has been
    recorded. This is for a call for the destination's stream that returns:
    that call is made before the check, and an error it throws itself is the
    one raised, again with nothing written. In particular, when the steps of
    [transfer()] before the links stage succeed and the source provider has
    no [streamLinks], [transfer()] throws
    [Unable to transfer links, source stream is missing], and no event of the
    links stage, so no [start(links)], is on the feed. *)
Theorem missing_stream :
  (forall s eng w,
     s <> media ->
     (absent (source_stream s eng) -> returns (destination_stream s eng) ->
      stage_function s eng w
      = (Thrown (missing_stream_error s "source"), w)) /\
     (forall inStream,
        source_stream s eng = Some (Returned (Some inStream)) ->
        absent (destination_stream s eng) ->
        stage_function s eng w
        = (Thrown (missing_stream_error s "destination"), w)) /\
     (forall e,
        absent (source_stream s eng) ->
        destination_stream s eng = Some (Thrown e) ->
        stage_function s eng w = (Thrown e, w))) /\
  (forall eng w w1,
     run_all (steps_before_links eng) w = (Returned tt, w1) ->
     absent (streamLinks (sourceProvider eng)) ->
     returns (getLinksStream (destinationProvider eng)) ->
     transfer eng w
     = (Thrown (mkError "Unable to transfer links, source stream is missing"),
        w1) /\
     exists new,
       progressStream w1 = progressStream w ++ new /\
       ((Start, links) ∉ map label new) /\
       forall l, l ∈ map label new -> snd l <> links).
Proof.
  split.
  - intros s eng w Hs. rewrite (stage_function_runStage s eng Hs).
    split; [|split].
    + apply runStage_missing_source.
    + apply runStage_missing_destination.
    + intros e. apply runStage_destination_throws.
  - intros eng w w1 Hbefore Hsrc Hdst. split.
    + rewrite transfer_steps.
      change (steps eng)
        with (steps_before_links eng
                ++ transferLinks eng
                :: [transferConfiguration eng; close eng]).
      rewrite (run_all_thrown _ _ _ _ _ _ _ Hbefore
                 (runStage_missing_source links eng w1 Hsrc Hdst)).
      reflexivity.
    + apply run_before_links in Hbefore as ->.
      exists (trace [schemas; entities; media] eng (transferProgress w)).
      split; [apply after_stages_events|].
      assert (Hno : forall l,
                 l ∈ map label (trace [schemas; entities; media] eng
                                  (transferProgress w)) ->
                 snd l <> links).
      { intros l Hl Hlinks. apply trace_stages in Hl. rewrite Hlinks in Hl.
        repeat (apply elem_of_cons in Hl as [Hl|Hl]; [discriminate|]).
        inversion Hl. }
      split; [|exact Hno].
      intros Hin. apply (Hno _ Hin). reflexivity.
Qed.

Lemma missing_stream_witness :
  let eng :=
    createTransferEngine (without_links (sample_source "1.2.3"))
      (sample_destination "1.2.3") (with_matching "exact") in
  absent (streamLinks (sourceProvider eng)) /\
  fst (transfer eng initial)
  = Thrown (mkError "Unable to transfer links, source stream is missing") /\
  exists new,
    progressStream (snd (transfer eng initial)) = progressStream initial ++ new /\
    ((Start, links) ∉ map label new) /\
    forall l, l ∈ map label new -> snd l <> links.
Proof.
  cbn zeta.
  assert (Hbefore :
    run_all (steps_before_links
               (createTransferEngine (without_links (sample_source "1.2.3"))
                  (sample_destination "1.2.3") (with_matching "exact")))
      initial
    = (Returned tt,
       snd (transfer
              (createTransferEngine (without_links (sample_source "1.2.3"))
                 (sample_destination "1.2.3") (with_matching "exact"))
              initial)))
    by (vm_compute; reflexivity).
  assert (Habsent :
    absent (streamLinks
              (sourceProvider
                 (createTransferEngine (without_links (sample_source "1.2.3"))
                    (sample_destination "1.2.3") (with_matching "exact")))))
    by (left; reflexivity).
  destruct (proj2 missing_stream _ _ _ Hbefore Habsent
              ltac:(intros e; discriminate))
    as [Hthrown Hfeed].
  split; [exact Habsent|]. split; [|exact Hfeed].
  rewrite Hthrown. reflexivity.
Defined.

(** ** Errors (C2) *)

Lemma run_all_thrown_inv l w e w' :
  run_all l w = (Thrown e, w') ->
  exists pre m post w1,
    l = pre ++ m :: post /\
    run_all pre w = (Returned tt, w1) /\
    m w1 = (Thrown e, w').
Proof.
  revert w. induction l as [|m l IH]; intros w; cbn.
  - discriminate.
  - unfold bind. destruct (m w) as [[[]|e0] w0] eqn:Hm.
    + intros Hrest. destruct (IH _ Hrest) as (pre & m' & post & w1 & -> & Hpre & Hm').
      exists (m :: pre), m', post, w1. repeat split; [|exact Hm'].
      cbn. unfold bind. rewrite Hm. exact Hpre.
    + intros [= <- <-]. exists [], m, l, w. repeat split. exact Hm.
Qed.

(** The error that ends a pipeline is the source stream's or the destination
    stream's own. *)
Lemma flow_error inStream outStream e :
  snd (flow inStream outStream) = Some e ->
  r_error inStream = Some e \/ exists n, w_error outStream = Some (n, e).
Proof.
  unfold flow. destruct (w_error outStream) as [[n e0]|]; [|cbn; auto].
  destruct (n <=? length (r_items inStream))%nat; cbn; [|auto].
  intros [= <-]. right. eauto.
Qed.

Lemma checked_mismatch eng w sm dm err :
  s_getMetadata (sourceProvider eng) = Returned (Some sm) ->
  d_getMetadata (destinationProvider eng) = Returned (Some dm) ->
  assertStrapiVersionIntegrity (options eng)
    (strapi_version sm) (strapi_version dm) = Thrown err ->
  checked eng w
  = (Thrown (mkError (unable_message eng)),
     logged (ConsoleError ["Integrity checks failed:"; message err]) w).
Proof.
  intros Hs Hd Hassert. unfold checked, integrityCheck, bind, lift.
  rewrite Hs, Hd, Hassert. reflexivity.
Qed.

(** C2, as amended. [transfer()] throws exactly when one of its steps
    (bootstrap, the integrity check, the five stage functions, close) throws,
    and then with that step's error unchanged: its [catch] rethrows what it
    caught. Inside the steps, an error of a provider call ([bootstrap],
    [getMetadata], a stream factory, [close]; stated for one failing call,
    the other of its pair returning) and an error emitted by a stream are
    thrown unchanged. A version mismatch is the exception: the
    descriptive error of [assertStrapiVersionIntegrity], which names the
    strategy and both versions, is caught inside [integrityCheck], its
    message is written to the error log, and [transfer()] throws instead the
    error [Unable to transfer the data between <source> and <destination>...],
    which names the two providers. *)
Theorem errors_reach_the_caller :
  (forall eng w e w',
     transfer eng w = (Thrown e, w') <->
     exists pre m post w1,
       steps eng = pre ++ m :: post /\
       run_all pre w = (Returned tt, w1) /\
       m w1 = (Thrown e, w')) /\
  (forall eng w e,
     (s_bootstrap (sourceProvider eng) = Some (Thrown e) ->
      returns (d_bootstrap (destinationProvider eng)) ->
      boostrap eng w = (Thrown e, w)) /\
     (returns (s_bootstrap (sourceProvider eng)) ->
      d_bootstrap (destinationProvider eng) = Some (Thrown e) ->
      boostrap eng w = (Thrown e, w)) /\
     (s_close (sourceProvider eng) = Some (Thrown e) ->
      returns (d_close (destinationProvider eng)) ->
      close eng w = (Thrown e, w)) /\
     (returns (s_close (sourceProvider eng)) ->
      d_close (destinationProvider eng) = Some (Thrown e) ->
      close eng w = (Thrown e, w)) /\
     (s_getMetadata (sourceProvider eng) = Thrown e ->
      checked eng w = (Thrown e, w)) /\
     (forall sm,
        s_getMetadata (sourceProvider eng) = Returned sm ->
        d_getMetadata (destinationProvider eng) = Thrown e ->
        checked eng w = (Thrown e, w))) /\
  (forall s eng w e,
     s <> media ->
     (source_stream s eng = Some (Thrown e) ->
      stage_function s eng w = (Thrown e, w)) /\
     (returns (source_stream s eng) ->
      destination_stream s eng = Some (Thrown e) ->
      stage_function s eng w = (Thrown e, w)) /\
     (forall inStream outStream,
        source_stream s eng = Some (Returned (Some inStream)) ->
        destination_stream s eng = Some (Returned (Some outStream)) ->
        snd (flow inStream outStream) = Some e ->
        fst (stage_function s eng w) = Thrown e /\
        (r_error inStream = Some e \/
         exists n, w_error outStream = Some (n, e)))) /\
  (forall eng w sm dm err,
     s_getMetadata (sourceProvider eng) = Returned (Some sm) ->
     d_getMetadata (destinationProvider eng) = Returned (Some dm) ->
     assertStrapiVersionIntegrity (options eng)
       (strapi_version sm) (strapi_version dm) = Thrown err ->
     checked eng w
     = (Thrown (mkError (unable_message eng)),
        logged (ConsoleError ["Integrity checks failed:"; message err]) w) /\
     forall w0,
       boostrap eng w0 = (Returned tt, w) ->
       transfer eng w0
       = (Thrown (mkError (unable_message eng)),
          logged (ConsoleError ["Integrity checks failed:"; message err]) w)).
Proof.
  split; [|split; [|split]].
  - intros eng w e w'. rewrite transfer_steps. split.
    + destruct (run_all (steps eng) w) as [[[]|e0] w0] eqn:Hrun; [discriminate|].
      intros [= <- <-]. apply run_all_thrown_inv. exact Hrun.
    + intros (pre & m & post & w1 & Hsteps & Hpre & Hm).
      rewrite Hsteps, (run_all_thrown _ _ _ _ _ _ _ Hpre Hm). reflexivity.
  - intros eng w e. unfold boostrap, close, checked, integrityCheck, returns.
    unfold bind, call, lift, ret.
    repeat split.
    + intros -> _. reflexivity.
    + intros Hs ->.
      destruct (s_bootstrap (sourceProvider eng)) as [[?|e0]|];
        try reflexivity. destruct (Hs e0). reflexivity.
    + intros -> _. reflexivity.
    + intros Hs ->.
      destruct (s_close (sourceProvider eng)) as [[?|e0]|];
        try reflexivity. destruct (Hs e0). reflexivity.
    + intros ->. reflexivity.
    + intros sm -> ->. reflexivity.
  - intros s eng w e Hs. rewrite (stage_function_runStage s eng Hs).
    unfold runStage, returns, bind, call, lift, ret, throw.
    split; [|split].
    + intros ->. reflexivity.
    + intros Hsrc ->.
      destruct (source_stream s eng) as [[[?|]|e0]|]; try reflexivity.
      destruct (Hsrc e0). reflexivity.
    + intros inStream outStream -> -> Hflow. split.
      * unfold updateStep, write_event. rewrite piped_run.
        cbn zeta. rewrite Hflow. reflexivity.
      * apply flow_error. exact Hflow.
  - intros eng w sm dm err Hs Hd Hassert.
    pose proof (checked_mismatch eng w sm dm err Hs Hd Hassert) as Hchecked.
    split; [exact Hchecked|].
    intros w0 Hboot. rewrite transfer_steps.
    change (steps eng)
      with ([boostrap eng] ++ checked eng
              :: [transferSchemas eng; transferEntities eng; transferMedia eng;
                  transferLinks eng; transferConfiguration eng; close eng]).
    erewrite run_all_thrown; [reflexivity| |exact Hchecked].
    cbn. unfold bind. rewrite Hboot. reflexivity.
Qed.

(** C2 as stated fails: with versions 1.2.3 and 1.2.4 under ['exact'] the
    check throws the descriptive error, and the caller of [transfer()] gets
    another one; the descriptive message only reaches the error log. *)
Lemma version_mismatch_counterexample :
  assertStrapiVersionIntegrity
    (options (sample_engine "exact" [] "1.2.3" "1.2.4"))
    (Some "1.2.3") (Some "1.2.4")
  = Thrown
      (mkError
         "Strapi versions doesn't match (exact check): 1.2.3 does not match with 1.2.4 ") /\
  transfer (sample_engine "exact" [] "1.2.3" "1.2.4") initial
  = (Thrown
       (mkError
          ("Unable to transfer the data between source::local-strapi and destination::local-file."
             +:+ newline +:+ "Please refer to the log above for more information.")),
     logged
       (ConsoleError
          ["Integrity checks failed:";
           "Strapi versions doesn't match (exact check): 1.2.3 does not match with 1.2.4 "])
       initial) /\
  fst (transfer (sample_engine "exact" [] "1.2.3" "1.2.4") initial)
  <> Thrown
       (mkError
          "Strapi versions doesn't match (exact check): 1.2.3 does not match with 1.2.4 ").
Proof.
  split; [vm_compute; reflexivity|]. split; [vm_compute; reflexivity|].
  vm_compute. discriminate.
Qed.

Lemma errors_reach_the_caller_witness :
  let eng := sample_engine "minor" [] "1.2.3" "1.3.0" in
  boostrap eng initial = (Returned tt, initial) /\
  transfer eng initial
  = (Thrown (mkError (unable_message eng)),
     logged
       (ConsoleError
          ["Integrity checks failed:";
           mismatch_message "minor" "1.2.3" "1.3.0"])
       initial).
Proof.
  cbn zeta. split; [reflexivity|].
  apply (proj2 (proj2 (proj2 (proj2 errors_reach_the_caller))
                  (sample_engine "minor" [] "1.2.3" "1.3.0") initial
                  (mkMetadata (Some (mkStrapiInfo (Some "1.2.3"))))
                  (mkMetadata (Some (mkStrapiInfo (Some "1.3.0"))))
                  (mkError (mismatch_message "minor" "1.2.3" "1.3.0"))
                  eq_refl eq_refl ltac:(vm_compute; reflexivity))).
  reflexivity.
Defined.

(** * The JWT service *)

Section Splitting.

Variable sep : ascii.

Lemma split_on_cons s : exists part parts, split_on sep s = part :: parts.
Proof.
  induction s as [|c s (part & parts & IH)]; cbn -[Ascii.eqb].
  - eauto.
  - destruct (Ascii.eqb c sep); [eauto|]. rewrite IH. eauto.
Qed.

(** One more part than separators. *)
Lemma split_on_length s : length (split_on sep s) = S (occurrences sep s).
Proof.
  induction s as [|c s IH]; [reflexivity|]. cbn -[Ascii.eqb].
  destruct (Ascii.eqb c sep).
  - cbn -[Ascii.eqb]. rewrite IH. reflexivity.
  - destruct (split_on_cons s) as (part & parts & Hs).
    rewrite Hs in *. cbn -[Ascii.eqb] in *. exact IH.
Qed.

Lemma split_on_whole s : occurrences sep s = 0 -> split_on sep s = [s].
Proof.
  induction s as [|c s IH]; [reflexivity|]. cbn -[Ascii.eqb].
  destruct (Ascii.eqb c sep); [discriminate|]. cbn -[Ascii.eqb].
  intros H. rewrite (IH H). reflexivity.
Qed.

Lemma split_on_app a b :
  occurrences sep a = 0 ->
  split_on sep (a +:+ String sep b) = a :: split_on sep b.
Proof.
  induction a as [|c a IH].
  - intros _. change ("" +:+ String sep b) with (String sep b).
    cbn -[Ascii.eqb]. rewrite Ascii.eqb_refl. reflexivity.
  - change (String c a +:+ String sep b) with (String c (a +:+ String sep b)).
    cbn -[Ascii.eqb]. destruct (Ascii.eqb c sep); [discriminate|].
    intros H. rewrite (IH H). reflexivity.
Qed.

End Splitting.

Lemma split_dot_split_on s : split_dot s = split_on "." s.
Proof. induction s as [|c s IH]; [reflexivity|]. cbn. rewrite IH. reflexivity. Qed.

Lemma is_bearer_truthy scheme : is_bearer scheme = true -> truthy scheme = true.
Proof. destruct scheme; [discriminate|reflexivity]. Qed.

Lemma getToken_header env request h c rest :
  header request = Some h ->
  h !! "authorization" = Some (String c rest) ->
  getToken env request
  = match split_on " " (String c rest) with
    | [scheme; credentials] =>
        verify env (if is_bearer scheme then credentials else "")
    | _ => Thrown invalid_format
    end.
Proof. intros Hh Ha. unfold getToken. rewrite Hh, Ha. reflexivity. Qed.

(** X1. A header [<scheme> <credentials>] whose scheme is Bearer in any
    letter case has its credentials verified, and the result of that
    verification is the result of [getToken]: a [token] parameter in the
    query or the body plays no part. *)
Theorem getToken_bearer env request h scheme credentials :
  header request = Some h ->
  h !! "authorization" = Some (scheme +:+ " " +:+ credentials) ->
  is_bearer scheme = true ->
  occurrences " " scheme = 0 ->
  occurrences " " credentials = 0 ->
  getToken env request = verify env credentials.
Proof.
  intros Hh Ha Hbearer Hscheme Hcred.
  destruct scheme as [|c rest]; [discriminate|].
  rewrite (getToken_header env request h c (rest +:+ " " +:+ credentials) Hh Ha).
  change (String c (rest +:+ " " +:+ credentials))
    with (String c rest +:+ String " " credentials).
  rewrite (split_on_app " " _ _ Hscheme), (split_on_whole " " _ Hcred).
  rewrite Hbearer. reflexivity.
Qed.


Lemma getToken_bearer_witness :
  is_bearer "bEaReR" = true /\
  getToken sample_jwt
    (sample_request (Some "bEaReR abc.def.ghi") (Some "other") None)
  = Returned {["id" := "7"]}.
Proof.
  split; [reflexivity|].
  rewrite (getToken_bearer sample_jwt _ {["authorization" := "bEaReR abc.def.ghi"]}
             "bEaReR" "abc.def.ghi");
    reflexivity.
Defined.

(** X2. A non-empty [authorization] header that does not hold exactly one
    space is refused with the format error, whatever its content, and also
    when a valid [token] parameter is there: nothing is verified. *)
Theorem getToken_malformed_header env request h authorization :
  header request = Some h ->
  h !! "authorization" = Some authorization ->
  truthy authorization = true ->
  occurrences " " authorization <> 1 ->
  getToken env request = Thrown invalid_format.
Proof.
  intros Hh Ha Htruthy Hspaces.
  destruct authorization as [|c rest]; [discriminate|].
  rewrite (getToken_header env request h c rest Hh Ha).
  pose proof (split_on_length " " (String c rest)) as Hlen.
  destruct (split_on " " (String c rest)) as [|p1 [|p2 [|p3 parts]]];
    try reflexivity.
  cbn [length] in Hlen. lia.
Qed.

Lemma getToken_malformed_header_witness :
  occurrences " " "abc.def.ghi" <> 1 /\
  occurrences " " "Bearer  abc.def.ghi" <> 1 /\
  getToken sample_jwt
    (sample_request (Some "abc.def.ghi") (Some "abc.def.ghi") None)
  = Thrown invalid_format /\
  getToken sample_jwt (sample_request (Some "Bearer  abc.def.ghi") None None)
  = Thrown invalid_format.
Proof.
  split; [cbn; lia|]. split; [cbn; lia|]. split.
  - apply (getToken_malformed_header sample_jwt _
             {["authorization" := "abc.def.ghi"]} "abc.def.ghi");
      [reflexivity|reflexivity|reflexivity|cbn; lia].
  - apply (getToken_malformed_header sample_jwt _
             {["authorization" := "Bearer  abc.def.ghi"]}
             "Bearer  abc.def.ghi");
      [reflexivity|reflexivity|reflexivity|cbn; lia].
Defined.

(** X3. A header [<scheme> <credentials>] whose scheme is not Bearer is not
    refused for its format and does not fall back to the [token] parameter:
    the empty token is what gets verified, and the credentials are
    ignored. *)
Theorem getToken_other_scheme env request h scheme credentials :
  header request = Some h ->
  h !! "authorization" = Some (scheme +:+ " " +:+ credentials) ->
  is_bearer scheme = false ->
  occurrences " " scheme = 0 ->
  occurrences " " credentials = 0 ->
  getToken env request = verify env "".
Proof.
  intros Hh Ha Hbearer Hscheme Hcred.
  assert (Hsplit : split_on " " (scheme +:+ " " +:+ credentials)
                   = [scheme; credentials]).
  { change (scheme +:+ " " +:+ credentials)
      with (scheme +:+ String " " credentials).
    rewrite (split_on_app " " _ _ Hscheme), (split_on_whole " " _ Hcred).
    reflexivity. }
  destruct (scheme +:+ " " +:+ credentials) as [|c rest] eqn:Hauth.
  - destruct scheme; discriminate.
  - rewrite (getToken_header env request h c rest Hh Ha), Hsplit, Hbearer.
    reflexivity.
Qed.

Lemma getToken_other_scheme_witness :
  is_bearer "Basic" = false /\
  getToken sample_jwt
    (sample_request (Some "Basic abc.def.ghi") (Some "abc.def.ghi") None)
  = Thrown (mkError "Invalid token.").
Proof.
  split; [reflexivity|].
  rewrite (getToken_other_scheme sample_jwt _
             {["authorization" := "Basic abc.def.ghi"]} "Basic" "abc.def.ghi");
    reflexivity.
Defined.

Lemma getToken_no_authorization env request :
  no_authorization request ->
  getToken env request
  = match (query request ∪ body request) !! "token" with
    | Some token => if truthy token then verify env token else Thrown no_header
    | None => Thrown no_header
    end.
Proof.
  unfold no_authorization, getToken.
  destruct (header request) as [h|].
  - intros [-> | ->];
      destruct ((query request ∪ body request) !! "token") as [[|c rest]|];
      reflexivity.
  - intros _.
    destruct ((query request ∪ body request) !! "token") as [[|c rest]|];
      reflexivity.
Qed.

(** X4. Without a usable [authorization] header the [token] parameter is
    verified, and the query wins over the body: a [token] in the query is
    the one used, an empty one there is refused with the missing-header
    error even when the body holds a token; the body's token is used only
    when the query has none; with no token at all the missing-header error
    is thrown. *)
Theorem getToken_params env request :
  no_authorization request ->
  (forall token,
     query request !! "token" = Some token ->
     getToken env request
     = if truthy token then verify env token else Thrown no_header) /\
  (forall token,
     query request !! "token" = None ->
     body request !! "token" = Some token ->
     getToken env request
     = if truthy token then verify env token else Thrown no_header) /\
  (query request !! "token" = None ->
   body request !! "token" = None ->
   getToken env request = Thrown no_header).
Proof.
  intros Hno. rewrite (getToken_no_authorization env request Hno).
  split; [|split].
  - intros token Hq. rewrite (lookup_union_Some_l _ _ _ _ Hq). reflexivity.
  - intros token Hq Hb. rewrite lookup_union_r by exact Hq. rewrite Hb.
    reflexivity.
  - intros Hq Hb. rewrite lookup_union_r by exact Hq. rewrite Hb. reflexivity.
Qed.

Lemma getToken_params_witness :
  no_authorization (sample_request None (Some "") (Some "abc.def.ghi")) /\
  getToken sample_jwt (sample_request None (Some "") (Some "abc.def.ghi"))
  = Thrown no_header /\
  getToken sample_jwt (sample_request (Some "") None (Some "abc.def.ghi"))
  = Returned {["id" := "7"]}.
Proof.
  split; [left; reflexivity|]. split.
  - apply (proj1 (getToken_params sample_jwt
                    (sample_request None (Some "") (Some "abc.def.ghi"))
                    (or_introl eq_refl)) "").
    reflexivity.
  - apply (proj1 (proj2 (getToken_params sample_jwt
                    (sample_request (Some "") None (Some "abc.def.ghi"))
                    (or_intror eq_refl))) "abc.def.ghi");
      reflexivity.
Defined.

Lemma verify_outcomes env token :
  (forall e, verify env token = Thrown e -> e = mkError "Invalid token.") /\
  (forall p,
     verify env token = Returned p ->
     jwt_verify env token (jwtSecret env) = Decoded (Some p) \/
     (jwt_verify env token (jwtSecret env) = Decoded None /\ p = ∅)).
Proof.
  unfold verify.
  destruct (jwt_verify env token (jwtSecret env)) as [|[p0|]]; split;
    intros x [=]; subst; auto.
Qed.

(** X5. [getToken] fails in three ways only: with the format error, with the
    missing-header error, or with [Invalid token.]; whatever error the
    library reports is replaced by the last. When it succeeds, the payload
    is one the library decoded for some token under the configured secret,
    or the empty object when the library decoded none. *)
Theorem getToken_outcomes env request :
  (forall e,
     getToken env request = Thrown e ->
     e ∈ [invalid_format; no_header; mkError "Invalid token."]) /\
  (forall p,
     getToken env request = Returned p ->
     exists token,
       jwt_verify env token (jwtSecret env) = Decoded (Some p) \/
       (jwt_verify env token (jwtSecret env) = Decoded None /\ p = ∅)).
Proof.
  assert (Hverify : forall token,
    (forall e, verify env token = Thrown e ->
               e ∈ [invalid_format; no_header; mkError "Invalid token."]) /\
    (forall p, verify env token = Returned p ->
       exists token,
         jwt_verify env token (jwtSecret env) = Decoded (Some p) \/
         (jwt_verify env token (jwtSecret env) = Decoded None /\ p = ∅))).
  { intros token. destruct (verify_outcomes env token) as [He Hp]. split.
    - intros e H. rewrite (He e H). repeat constructor.
    - intros p H. exists token. apply Hp. exact H. }
  assert (Hthrown : forall e0 : Error,
    e0 ∈ [invalid_format; no_header; mkError "Invalid token."] ->
    (forall e, @Thrown (gmap string string) e0 = Thrown e ->
               e ∈ [invalid_format; no_header; mkError "Invalid token."]) /\
    (forall p, @Thrown (gmap string string) e0 = Returned p ->
       exists token,
         jwt_verify env token (jwtSecret env) = Decoded (Some p) \/
         (jwt_verify env token (jwtSecret env) = Decoded None /\ p = ∅))).
  { intros e0 He0. split; [intros e [= <-]; exact He0|discriminate]. }
  unfold getToken.
  destruct (match header request with
            | Some h => h !! "authorization"
            | None => None
            end) as [[|c rest]|].
  - destruct ((query request ∪ body request) !! "token") as [[|c rest]|];
      [apply Hthrown; repeat constructor|apply Hverify
      |apply Hthrown; repeat constructor].
  - destruct (split_on " " (String c rest)) as [|p1 [|p2 [|p3 parts]]];
      try (apply Hthrown; repeat constructor).
    apply Hverify.
  - destruct ((query request ∪ body request) !! "token") as [[|c rest]|];
      [apply Hthrown; repeat constructor|apply Hverify
      |apply Hthrown; repeat constructor].
Qed.

(** * The export command *)

Lemma number_of_String n : number_of (String_of_number n) = Some n.
Proof.
  unfold number_of, String_of_number.
  rewrite DecimalString.NilEmpty.usu. cbn.
  rewrite DecimalNat.Unsigned.of_to. reflexivity.
Qed.

Lemma String_of_number_inj n m :
  String_of_number n = String_of_number m -> n = m.
Proof.
  intros H. apply (f_equal number_of) in H.
  rewrite !number_of_String in H. congruence.
Qed.

Lemma number_of_pad n : number_of (pad n) = Some n.
Proof.
  unfold pad. destruct (n <? 10)%nat; [|apply number_of_String].
  pose proof (number_of_String n) as H. unfold number_of in *.
  change ("0" +:+ String_of_number n) with (String "0" (String_of_number n)).
  cbn [DecimalString.NilEmpty.uint_of_string].
  destruct (DecimalString.NilEmpty.uint_of_string (String_of_number n));
    [|discriminate].
  cbn in *. exact H.
Qed.

Lemma pad_inj n m : pad n = pad m -> n = m.
Proof.
  intros H. apply (f_equal number_of) in H.
  rewrite !number_of_pad in H. congruence.
Qed.

Lemma string_length_app a b :
  String.length (a +:+ b) = String.length a + String.length b.
Proof.
  induction a as [|c a IH]; [reflexivity|].
  change (String c a +:+ b) with (String c (a +:+ b)). cbn. rewrite IH.
  reflexivity.
Qed.

Lemma string_app_inj a1 b1 a2 b2 :
  String.length a1 = String.length a2 ->
  a1 +:+ b1 = a2 +:+ b2 -> a1 = a2 /\ b1 = b2.
Proof.
  revert a2. induction a1 as [|c a1 IH]; intros [|c2 a2]; try discriminate.
  - intros _ H. split; [reflexivity|exact H].
  - intros Hlen H.
    change (String c (a1 +:+ b1) = String c2 (a2 +:+ b2)) in H.
    injection H as -> H. injection Hlen as Hlen.
    destruct (IH a2 Hlen H) as [-> ->]. split; reflexivity.
Qed.

(** The number of digits of a number, one more for every factor of ten. *)
Lemma string_of_uint_length d :
  String.length (DecimalString.NilEmpty.string_of_uint d) = Decimal.nb_digits d.
Proof. induction d; cbn; congruence. Qed.

Lemma String_of_number_length n :
  String.length (String_of_number n)
  = Decimal.nb_digits (DecimalNat.Unsigned.to_lu n).
Proof.
  unfold String_of_number. rewrite string_of_uint_length.
  rewrite DecimalNat.Unsigned.to_uint_alt. apply DecimalFacts.nb_digits_rev.
Qed.

Lemma to_lu_digit q r :
  q <> 0 -> r < 10 ->
  Decimal.nb_digits (DecimalNat.Unsigned.to_lu (r + 10 * q))
  = S (Decimal.nb_digits (DecimalNat.Unsigned.to_lu q)).
Proof.
  intros Hq Hr.
  do 10 (destruct r as [|r]; [cbn [Nat.add];
    rewrite ?DecimalNat.Unsigned.to_lu_succ,
            (DecimalNat.Unsigned.to_lu_tenfold q Hq); reflexivity|]).
  lia.
Qed.

Lemma digits_step n :
  10 <= n ->
  String.length (String_of_number n)
  = S (String.length (String_of_number (n / 10))).
Proof.
  intros Hn. rewrite !String_of_number_length.
  rewrite (Nat.div_mod_eq n 10) at 1. rewrite Nat.add_comm.
  apply to_lu_digit.
  - intros H. apply Nat.div_small_iff in H; lia.
  - apply Nat.mod_upper_bound. lia.
Qed.

Lemma one_digit n : n < 10 -> String.length (String_of_number n) = 1.
Proof.
  intros Hn. do 10 (destruct n as [|n]; [reflexivity|]). lia.
Qed.

Lemma two_digits n : 10 <= n < 100 -> String.length (String_of_number n) = 2.
Proof.
  intros Hn. rewrite digits_step by lia. rewrite one_digit; [reflexivity|].
  apply Nat.Div0.div_lt_upper_bound. lia.
Qed.

Lemma four_digits n :
  1000 <= n < 10 * 1000 -> String.length (String_of_number n) = 4.
Proof.
  intros Hn.
  assert (H1 : 100 <= n / 10 < 1000).
  { split; [apply Nat.div_le_lower_bound; lia
           |apply Nat.Div0.div_lt_upper_bound; lia]. }
  assert (H2 : 10 <= n / 10 / 10 < 100).
  { split; [apply Nat.div_le_lower_bound; lia
           |apply Nat.Div0.div_lt_upper_bound; lia]. }
  rewrite digits_step by lia. rewrite digits_step by lia.
  rewrite two_digits by exact H2. reflexivity.
Qed.

Lemma pad_length n : n < 100 -> String.length (pad n) = 2.
Proof.
  intros Hn. unfold pad. destruct (Nat.ltb_spec n 10) as [Hlt|Hge].
  - rewrite string_length_app, one_digit by exact Hlt. reflexivity.
  - rewrite string_length_app, two_digits by lia. reflexivity.
Qed.

Lemma safe_integer n : n <= 53 -> n < 2 ^ 53.
Proof.
  intros Hn. apply Nat.le_lt_trans with 53; [exact Hn|].
  apply Nat.pow_gt_lin_r. lia.
Qed.

(** X6. For a safe integer (below [2 ^ 53], where [String(n)] is the plain
    decimal digits), [pad] writes a number below 100 with exactly two
    characters, a number from 10 on with its digits as they are, and in
    every case the text reads back as the number. *)
Theorem pad_two_digits n :
  n < 2 ^ 53 ->
  number_of (pad n) = Some n /\
  (n < 100 -> String.length (pad n) = 2) /\
  (10 <= n -> pad n = String_of_number n).
Proof.
  intros _. split; [apply number_of_pad|]. split; [apply pad_length|].
  intros Hn. unfold pad. destruct (Nat.ltb_spec n 10); [lia|reflexivity].
Qed.

Lemma pad_two_digits_witness :
  7 < 2 ^ 53 /\ 12 < 2 ^ 53 /\
  pad 7 = "07" /\ String.length (pad 7) = 2 /\ pad 12 = "12".
Proof.
  assert (H7 : 7 < 2 ^ 53) by (apply safe_integer; lia).
  assert (H12 : 12 < 2 ^ 53) by (apply safe_integer; lia).
  destruct (pad_two_digits 7 H7) as (_ & Hlen & _).
  destruct (pad_two_digits 12 H12) as (_ & _ & Hsame).
  split; [exact H7|]. split; [exact H12|].
  split; [reflexivity|]. split; [apply Hlen; lia|].
  rewrite Hsame by lia. reflexivity.
Defined.

Lemma timestamp_length d :
  calendar d -> String.length (yyyymmddHHMMSS d) = 14.
Proof.
  intros (Hy & Hm & Hd & Hh & Hmin & Hs). unfold yyyymmddHHMMSS.
  rewrite !string_length_app, four_digits by exact Hy.
  rewrite !pad_length by lia. reflexivity.
Qed.

Lemma timestamp_inj d d' :
  calendar d -> calendar d' ->
  yyyymmddHHMMSS d = yyyymmddHHMMSS d' -> d = d'.
Proof.
  intros Hd Hd' Heq.
  destruct Hd as (Hy & Hm & Hdt & Hh & Hmin & Hs).
  destruct Hd' as (Hy' & Hm' & Hdt' & Hh' & Hmin' & Hs').
  unfold yyyymmddHHMMSS in Heq.
  apply string_app_inj in Heq as [Hyear Heq];
    [|rewrite !four_digits by assumption; reflexivity].
  apply string_app_inj in Heq as [Hmonth Heq];
    [|rewrite !pad_length by lia; reflexivity].
  apply string_app_inj in Heq as [Hdate Heq];
    [|rewrite !pad_length by lia; reflexivity].
  apply string_app_inj in Heq as [Hhours Heq];
    [|rewrite !pad_length by lia; reflexivity].
  apply string_app_inj in Heq as [Hminutes Hseconds];
    [|rewrite !pad_length by lia; reflexivity].
  apply String_of_number_inj in Hyear.
  apply pad_inj in Hmonth, Hdate, Hhours, Hminutes, Hseconds.
  destruct d, d'. cbn in *. f_equal; lia.
Qed.

(** X7. For a date with a four-digit year the timestamp has exactly 14
    characters, and two such dates with the same timestamp are the same
    date, second for second: backup names made within different seconds
    differ. *)
Theorem timestamp_fixed_width_injective d :
  calendar d ->
  String.length (yyyymmddHHMMSS d) = 14 /\
  forall d',
    calendar d' -> yyyymmddHHMMSS d = yyyymmddHHMMSS d' -> d = d'.
Proof.
  intros Hd. split; [apply timestamp_length; exact Hd|].
  intros d' Hd'. apply timestamp_inj; assumption.
Qed.

Lemma timestamp_fixed_width_injective_witness :
  calendar (mkDateTime 2026 10 3 8 5 9) /\
  String.length (yyyymmddHHMMSS (mkDateTime 2026 10 3 8 5 9)) = 14 /\
  yyyymmddHHMMSS (mkDateTime 2026 10 3 8 5 9) = "20261103080509".
Proof.
  assert (Hcal : calendar (mkDateTime 2026 10 3 8 5 9))
    by (unfold calendar; cbn; lia).
  split; [exact Hcal|]. split; [|reflexivity].
  apply (timestamp_fixed_width_injective _ Hcal).
Defined.

(** X8. The path the export writes to is never empty: a non-empty file name
    is used as it is, and a missing or empty one is replaced by [backup_]
    followed by the timestamp, 21 characters for a date with a four-digit
    year, different for different seconds. *)
Theorem export_file_never_empty :
  (forall filename date, export_file filename date <> "") /\
  (forall f date, f <> "" -> export_file (Some f) date = f) /\
  (forall date,
     export_file None date = "backup_" +:+ yyyymmddHHMMSS date /\
     export_file (Some "") date = export_file None date) /\
  (forall date,
     calendar date ->
     String.length (export_file None date) = 21 /\
     forall date',
       calendar date' ->
       export_file None date = export_file None date' -> date = date').
Proof.
  split; [|split; [|split]].
  - intros [[|c f]|] date; cbn; discriminate.
  - intros [|c f] date Hf; [congruence|reflexivity].
  - intros date. split; reflexivity.
  - intros date Hdate. unfold export_file, getDefaultExportBackupName. split.
    + rewrite string_length_app, timestamp_length by exact Hdate. reflexivity.
    + intros date' Hdate' Heq.
      apply string_app_inj in Heq as [_ Heq]; [|reflexivity].
      apply timestamp_inj; assumption.
Qed.

Lemma export_file_never_empty_witness :
  calendar (mkDateTime 2026 10 3 8 5 9) /\
  export_file (Some "") (mkDateTime 2026 10 3 8 5 9) = "backup_20261103080509" /\
  String.length (export_file None (mkDateTime 2026 10 3 8 5 9)) = 21 /\
  export_file (Some "my-export") (mkDateTime 2026 10 3 8 5 9) = "my-export".
Proof.
  assert (Hcal : calendar (mkDateTime 2026 10 3 8 5 9))
    by (unfold calendar; cbn; lia).
  destruct export_file_never_empty as (_ & Hgiven & _ & Hdefault).
  split; [exact Hcal|]. split; [reflexivity|]. split.
  - apply (Hdefault _ Hcal).
  - apply Hgiven. discriminate.
Defined.

(** * More of the engine *)

(** X10. [integrityCheck] returns true, whatever the strategy and without
    logging, when either provider's metadata is missing or either version is
    missing or empty. With two present versions it returns true exactly in
    the accepted cases of the strategy, and otherwise returns false after
    logging one line with the mismatch message; it does not throw for a
    mismatch. It throws only what a [getMetadata] call throws, leaving the
    world as it was. *)
Theorem integrityCheck_outcomes eng w :
  (forall sm dm,
     s_getMetadata (sourceProvider eng) = Returned sm ->
     d_getMetadata (destinationProvider eng) = Returned dm ->
     sm = None \/ dm = None ->
     integrityCheck eng w = (Returned true, w)) /\
  (forall sm dm,
     s_getMetadata (sourceProvider eng) = Returned (Some sm) ->
     d_getMetadata (destinationProvider eng) = Returned (Some dm) ->
     absent_version (strapi_version sm) \/ absent_version (strapi_version dm) ->
     integrityCheck eng w = (Returned true, w)) /\
  (forall sm dm sv dv,
     s_getMetadata (sourceProvider eng) = Returned (Some sm) ->
     d_getMetadata (destinationProvider eng) = Returned (Some dm) ->
     strapi_version sm = Some sv -> strapi_version dm = Some dv ->
     truthy sv = true -> truthy dv = true ->
     (accepted (versionMatching (options eng)) sv dv ->
      integrityCheck eng w = (Returned true, w)) /\
     (~ accepted (versionMatching (options eng)) sv dv ->
      integrityCheck eng w
      = (Returned false,
         logged
           (ConsoleError
              ["Integrity checks failed:";
               mismatch_message (versionMatching (options eng)) sv dv])
           w))) /\
  (forall e w',
     integrityCheck eng w = (Thrown e, w') ->
     w' = w /\
     (s_getMetadata (sourceProvider eng) = Thrown e \/
      d_getMetadata (destinationProvider eng) = Thrown e)).
Proof.
  unfold integrityCheck, bind, lift, ret, log.
  split; [|split; [|split]].
  - intros sm dm -> -> [-> | ->]; [reflexivity|].
    destruct sm; reflexivity.
  - intros sm dm -> -> Habsent.
    assert (Hassert : assertStrapiVersionIntegrity (options eng)
                        (strapi_version sm) (strapi_version dm) = Returned tt).
    { unfold assertStrapiVersionIntegrity.
      destruct Habsent as [[-> | ->] | [-> | ->]];
        destruct (strapi_version sm) as [[|? ?]|];
        try destruct (strapi_version dm) as [[|? ?]|]; reflexivity. }
    rewrite Hassert. reflexivity.
  - intros sm dm sv dv -> -> -> -> Hsv Hdv.
    destruct (assert_outcome (options eng) sv dv Hsv Hdv) as [Hyes Hno].
    split; intros Hacc.
    + rewrite (Hyes Hacc). reflexivity.
    + rewrite (Hno Hacc). reflexivity.
  - intros e w'.
    destruct (s_getMetadata (sourceProvider eng)) as [[sm|]|e1];
      destruct (d_getMetadata (destinationProvider eng)) as [[dm|]|e2];
      try (intros [= <- <-]; auto; fail); try discriminate.
    destruct (assertStrapiVersionIntegrity _ _ _) as [[]|err]; discriminate.
Qed.

Lemma integrityCheck_outcomes_witness :
  let eng :=
    createTransferEngine (sample_source "1.2.3") (sample_destination "")
      (with_matching "exact") in
  absent_version (Some "") /\
  integrityCheck eng initial = (Returned true, initial).
Proof.
  cbn zeta. split; [right; reflexivity|].
  apply (proj1 (proj2 (integrityCheck_outcomes
                         (createTransferEngine (sample_source "1.2.3")
                            (sample_destination "") (with_matching "exact"))
                         initial))
           (mkMetadata (Some (mkStrapiInfo (Some "1.2.3"))))
           (mkMetadata (Some (mkStrapiInfo (Some ""))))
           eq_refl eq_refl).
  right. right. reflexivity.
Defined.

(** ** Counters after a transfer *)

Lemma record_all_lookup_ne s aggregateKey items tp other :
  other <> s -> record_all s aggregateKey items tp !! other = tp !! other.
Proof.
  intros Hne. revert tp. induction items as [|data items IH]; intros tp.
  - reflexivity.
  - change (record_all s aggregateKey (data :: items) tp)
      with (record_all s aggregateKey items
              (incrementTransferProgress s data aggregateKey tp)).
    rewrite IH. apply increment_lookup_ne. exact Hne.
Qed.

Lemma record_all_is_Some s aggregateKey items tp :
  items <> [] -> is_Some (record_all s aggregateKey items tp !! s).
Proof.
  destruct items as [|data items]; [congruence|]. intros _.
  change (record_all s aggregateKey (data :: items) tp)
    with (record_all s aggregateKey items
            (incrementTransferProgress s data aggregateKey tp)).
  destruct (record_all_le s aggregateKey items
              (incrementTransferProgress s data aggregateKey tp) s
              (recorded s data aggregateKey tp)
              (increment_lookup_eq s data aggregateKey tp))
    as (e' & He' & _).
  eexists. exact He'.
Qed.

Lemma record_all_None s aggregateKey items tp :
  record_all s aggregateKey items tp !! s = None
  <-> tp !! s = None /\ items = [].
Proof.
  split.
  - intros Hnone. destruct items as [|data items].
    + split; [exact Hnone|reflexivity].
    + destruct (record_all_is_Some s aggregateKey (data :: items) tp)
        as [e He]; [discriminate|]. congruence.
  - intros [Hnone ->]. exact Hnone.
Qed.

Lemma after_stage_lookup_ne s items w other :
  other <> s ->
  transferProgress (after_stage s items w) !! other
  = transferProgress w !! other.
Proof. intros Hne. cbn. apply record_all_lookup_ne. exact Hne. Qed.

Lemma entry_of_record_all_ne s aggregateKey items tp other :
  other <> s ->
  entry_of (record_all s aggregateKey items tp) other = entry_of tp other.
Proof.
  intros Hne. unfold entry_of. rewrite record_all_lookup_ne by exact Hne.
  reflexivity.
Qed.

(** The progress after the five stages: media records nothing. *)
Lemma after_call_order eng w :
  transferProgress (after_stages call_order eng w)
  = record_all configuration None (stream_items configuration eng)
      (record_all links None (stream_items links eng)
         (record_all entities (Some "type") (stream_items entities eng)
            (record_all schemas None (stream_items schemas eng)
               (transferProgress w)))).
Proof. reflexivity. Qed.

Lemma stream_items_media eng : stream_items media eng = [].
Proof. reflexivity. Qed.

Lemma after_call_order_entry eng w s :
  let tp' := transferProgress (after_stages call_order eng w) in
  count (entry_of tp' s)
  = count (entry_of (transferProgress w) s) + length (stream_items s eng) /\
  bytes (entry_of tp' s)
  = bytes (entry_of (transferProgress w) s)
    + total_length (stream_items s eng) /\
  (tp' !! s = None
   <-> transferProgress w !! s = None /\ stream_items s eng = []).
Proof.
  cbn zeta. rewrite after_call_order.
  destruct s; rewrite ?stream_items_media;
    rewrite ?entry_of_record_all_ne, ?record_all_lookup_ne by discriminate;
    repeat
      match goal with
      | |- context [count (entry_of (record_all ?s ?k ?items ?tp) ?s)] =>
          destruct (record_all_totals s k items tp) as [-> ->]
      | |- context [record_all ?s ?k ?items ?tp !! ?s = None] =>
          rewrite (record_all_None s k items tp)
      end;
    rewrite ?entry_of_record_all_ne, ?record_all_lookup_ne by discriminate;
    cbn [length total_length foldr];
    (split; [lia|split; [lia|tauto]]).
Qed.

(** X11. After a [transfer()] that resolves, the count of every stage has
    grown by exactly the number of items its source stream emitted and its
    bytes by their total serialized size, from whatever the progress was
    before: the counters are never reset, so a second transfer on the same
    engine adds to the first. A stage has no entry afterwards exactly when
    it had none before and its stream was empty; the media stage, which has
    no stream, never gets one from a transfer. *)
Theorem transfer_counts eng w r w' :
  transfer eng w = (Returned r, w') ->
  (forall s,
     count (entry_of (transferProgress w') s)
     = count (entry_of (transferProgress w) s) + length (stream_items s eng) /\
     bytes (entry_of (transferProgress w') s)
     = bytes (entry_of (transferProgress w) s)
       + total_length (stream_items s eng) /\
     (transferProgress w' !! s = None
      <-> transferProgress w !! s = None /\ stream_items s eng = [])) /\
  transferProgress w' !! media = transferProgress w !! media.
Proof.
  intros Hrun. apply transfer_returned in Hrun as [-> _]. split.
  - intros s. apply after_call_order_entry.
  - rewrite after_call_order.
    rewrite !record_all_lookup_ne by discriminate. reflexivity.
Qed.

Lemma transfer_counts_witness :
  let eng := sample_engine "exact" [] "1.2.3" "1.2.3" in
  let once := snd (transfer eng initial) in
  let twice := snd (transfer eng once) in
  fst (transfer eng once)
  = Returned {| source := "source results";
                destination := "destination results" |} /\
  count (entry_of (transferProgress once) entities) = 4 /\
  count (entry_of (transferProgress twice) entities) = 8 /\
  bytes (entry_of (transferProgress twice) entities) = 138 /\
  transferProgress twice !! media = None.
Proof.
  cbn zeta.
  assert (Hrun :
    transfer (sample_engine "exact" [] "1.2.3" "1.2.3")
      (snd (transfer (sample_engine "exact" [] "1.2.3" "1.2.3") initial))
    = (Returned {| source := "source results";
                   destination := "destination results" |},
       snd (transfer (sample_engine "exact" [] "1.2.3" "1.2.3")
              (snd (transfer (sample_engine "exact" [] "1.2.3" "1.2.3")
                      initial)))))
    by (vm_compute; reflexivity).
  destruct (transfer_counts _ _ _ _ Hrun) as [Hstage Hmedia].
  destruct (Hstage entities) as (Hcount & Hbytes & _).
  split; [vm_compute; reflexivity|]. split; [vm_compute; reflexivity|].
  rewrite Hcount, Hbytes, Hmedia.
  repeat split; vm_compute; reflexivity.
Defined.

(** ** The totals of the export table *)

Lemma totals_empty : totals ∅ = (0, 0).
Proof. unfold totals. apply map_fold_empty. Qed.

Lemma totals_insert i x (m : TransferProgress) :
  m !! i = None ->
  totals (<[i := x]> m) = (fst (totals m) + bytes x, snd (totals m) + 1).
Proof.
  intros Hi. unfold totals.
  rewrite (map_fold_insert_L
             (fun _ item acc => (fst acc + bytes item, snd acc + 1))
             (0, 0) i x m); [reflexivity| |exact Hi].
  intros j1 j2 z1 z2 y _ _ _. cbn. f_equal; lia.
Qed.

Lemma length_filter_is_Some (m : TransferProgress) l :
  length (filter (fun s => is_Some (m !! s)) l)
  = sum_list (map (fun s => match m !! s with Some _ => 1 | None => 0 end) l).
Proof.
  induction l as [|s l IH]; [reflexivity|].
  rewrite filter_cons. cbn [map sum_list]. rewrite <- IH.
  destruct (m !! s) as [e|] eqn:Hs.
  - rewrite decide_True by eauto. reflexivity.
  - rewrite decide_False by (intros [? [=]]). reflexivity.
Qed.

(** The totals of a progress object: the bytes of its stages added up, and
    how many stages it holds. *)
Lemma totals_stages (m : TransferProgress) :
  totals m
  = (sum_list (map (fun s => bytes (entry_of m s)) all_stages),
     length (filter (fun s => is_Some (m !! s)) all_stages)).
Proof.
  rewrite length_filter_is_Some.
  induction m as [|i x m Hi IH] using map_ind.
  - rewrite totals_empty. reflexivity.
  - rewrite (totals_insert i x m Hi), IH. cbn [fst snd].
    unfold all_stages, entry_of. cbn [map sum_list].
    destruct i;
      rewrite lookup_insert_eq, !lookup_insert_ne by discriminate;
      rewrite Hi; cbn; f_equal; lia.
Qed.

Lemma transfer_has_complete eng w :
  existsb (fun e => bool_decide (ev_type e = Complete))
    (progressStream (after_stages call_order eng w)) = true.
Proof.
  apply existsb_exists.
  assert (Hin : (Complete, media)
                ∈ map label (progressStream (after_stages call_order eng w))).
  { rewrite after_stages_events, map_app. apply elem_of_app. right.
    apply (trace_has_stage _ _ _ media); [repeat constructor|].
    apply block_labels_complete. }
  apply list_elem_of_fmap in Hin as (e & He & Hin).
  exists e. split; [apply list_elem_of_In; exact Hin|].
  apply bool_decide_eq_true. injection He as He _. congruence.
Qed.

(** X9. After an export whose transfer resolves, on a fresh engine, the table
    is built from the engine's final progress. Its total of bytes is the
    serialized size of all the items of the four streams; its total of items
    is the number of stages that moved at least one item, at most four, and
    not the number of items: every stage adds one to it, and the media stage
    and a stage with an empty stream are not in the table. *)
Theorem export_totals eng r w' :
  transfer eng initial = (Returned r, w') ->
  resultData w' = transferProgress w' /\
  totals (resultData w')
  = (sum_list (map (fun s => total_length (stream_items s eng))
                 streaming_stages),
     length (filter (fun s => stream_items s eng <> []) streaming_stages)) /\
  snd (totals (resultData w')) <= 4.
Proof.
  intros Hrun. apply transfer_returned in Hrun as [-> _].
  assert (Hdata : resultData (after_stages call_order eng initial)
                  = transferProgress (after_stages call_order eng initial)).
  { unfold resultData. rewrite transfer_has_complete. reflexivity. }
  assert (Htotals :
    totals (transferProgress (after_stages call_order eng initial))
    = (sum_list (map (fun s => total_length (stream_items s eng))
                   streaming_stages),
       length (filter (fun s => stream_items s eng <> []) streaming_stages))).
  { rewrite totals_stages. f_equal.
    - unfold all_stages, streaming_stages. cbn [map sum_list].
      destruct (after_call_order_entry eng initial schemas) as (_ & -> & _).
      destruct (after_call_order_entry eng initial entities) as (_ & -> & _).
      destruct (after_call_order_entry eng initial links) as (_ & -> & _).
      destruct (after_call_order_entry eng initial media) as (_ & -> & _).
      destruct (after_call_order_entry eng initial configuration)
        as (_ & -> & _).
      rewrite stream_items_media. unfold id, entry_of.
      cbn [transferProgress initial]. rewrite !lookup_empty.
      cbn [default bytes zero_entry total_length foldr]. lia.
    - rewrite (list_filter_iff _ (fun s => stream_items s eng <> [])).
      + unfold all_stages, streaming_stages. rewrite !filter_cons.
        rewrite (decide_False (P := stream_items media eng <> []))
          by (intros H; apply H; reflexivity).
        reflexivity.
      + intros s.
        destruct (after_call_order_entry eng initial s) as (_ & _ & Hnone).
        rewrite <- not_eq_None_Some, Hnone. cbn. rewrite lookup_empty.
        tauto. }
  rewrite Hdata, Htotals. repeat split. cbn [snd].
  etransitivity; [apply length_filter|]. reflexivity.
Qed.

Lemma export_totals_witness :
  let eng := sample_engine "exact" [] "1.2.3" "1.2.3" in
  fst (transfer eng initial)
  = Returned {| source := "source results";
                destination := "destination results" |} /\
  totals (resultData (snd (transfer eng initial))) = (134, 4) /\
  sum_list (map (fun s => length (stream_items s eng)) streaming_stages) = 8.
Proof.
  cbn zeta.
  assert (Hrun :
    transfer (sample_engine "exact" [] "1.2.3" "1.2.3") initial
    = (Returned {| source := "source results";
                   destination := "destination results" |},
       snd (transfer (sample_engine "exact" [] "1.2.3" "1.2.3") initial)))
    by (vm_compute; reflexivity).
  destruct (export_totals _ _ _ Hrun) as (_ & Htotals & _).
  split; [vm_compute; reflexivity|]. split; [|vm_compute; reflexivity].
  rewrite Htotals. vm_compute. reflexivity.
Defined.

(** ** The buckets of the entities *)

Lemma buckets_of_record_all_ne s aggregateKey items tp other :
  other <> s ->
  buckets_of (record_all s aggregateKey items tp) other = buckets_of tp other.
Proof.
  intros Hne. unfold buckets_of.
  rewrite entry_of_record_all_ne by exact Hne. reflexivity.
Qed.

Lemma bucket_lookup_increment name key data tp v :
  truthy key = true ->
  keyed_item key data = true ->
  buckets_of (incrementTransferProgress name data (Some key) tp) name !! v
  = if decide (valued key v data)
    then Some {| b_count := b_count (bucket_of tp name v) + 1;
                 b_bytes := b_bytes (bucket_of tp name v) + json_length data |}
    else buckets_of tp name !! v.
Proof.
  intros Hkey Hdata. destruct (decide (valued key v data)) as [Hv|Hv];
    unfold valued in Hv.
  - rewrite (buckets_of_increment_keyed name data (Some key) tp v).
    + apply lookup_insert_eq.
    + unfold aggregated. rewrite Hkey. exact Hv.
    + apply keyed_not_proto. exact (keyed_item_value key data v Hdata Hv).
  - rewrite buckets_of_increment. unfold aggregated. rewrite Hkey.
    destruct (own data !! key) as [u|]; [|reflexivity].
    rewrite !lookup_alter_ne, ensure_bucket_lookup_ne by congruence.
    reflexivity.
Qed.

Lemma record_all_bucket name key items tp v :
  truthy key = true ->
  forallb (keyed_item key) items = true ->
  let tp' := record_all name (Some key) items tp in
  b_count (bucket_of tp' name v)
  = b_count (bucket_of tp name v) + length (filter (valued key v) items) /\
  b_bytes (bucket_of tp' name v)
  = b_bytes (bucket_of tp name v)
    + total_length (filter (valued key v) items) /\
  (is_Some (buckets_of tp' name !! v)
   <-> is_Some (buckets_of tp name !! v)
       \/ exists data, data ∈ items /\ valued key v data).
Proof.
  intros Hkey. cbn zeta. revert tp.
  induction items as [|data items IH]; intros tp Hitems.
  - cbn. split; [lia|split; [lia|split]]; [tauto|].
    intros [H|(data & Hin & _)]; [exact H|inversion Hin].
  - cbn [forallb] in Hitems. apply andb_prop in Hitems as [Hdata Hitems].
    change (record_all name (Some key) (data :: items) tp)
      with (record_all name (Some key) items
              (incrementTransferProgress name data (Some key) tp)).
    destruct (IH (incrementTransferProgress name data (Some key) tp) Hitems)
      as (-> & -> & ->).
    unfold bucket_of.
    rewrite (bucket_lookup_increment name key data tp v Hkey Hdata).
    rewrite filter_cons. fold (bucket_of tp name v).
    destruct (decide (valued key v data)) as [Hv|Hv].
    + change (total_length (data :: filter (valued key v) items))
        with (json_length data + total_length (filter (valued key v) items)).
      unfold id. cbn [default b_count b_bytes length].
      split; [rewrite <- Nat.add_assoc; reflexivity|].
      split; [rewrite <- Nat.add_assoc; reflexivity|split].
      * intros _. right. exists data. split; [left|exact Hv].
      * intros _. left. eauto.
    + split; [reflexivity|split; [reflexivity|split]].
      * intros [H|(d & Hin & Hd)]; [left; exact H|].
        right. exists d. split; [right; exact Hin|exact Hd].
      * intros [H|(d & Hin & Hd)]; [left; exact H|].
        apply elem_of_cons in Hin as [->|Hin]; [contradiction|].
        right. eauto.
Qed.

Lemma aggregates_record_all_unkeyed s items tp other :
  aggregates (entry_of (record_all s None items tp) other)
  = aggregates (entry_of tp other).
Proof.
  destruct (decide (other = s)) as [->|Hne];
    [|rewrite entry_of_record_all_ne by exact Hne; reflexivity].
  revert tp. induction items as [|data items IH]; intros tp; [reflexivity|].
  change (record_all s None (data :: items) tp)
    with (record_all s None items (incrementTransferProgress s data None tp)).
  rewrite IH, entry_of_increment. reflexivity.
Qed.

(** X12. After a [transfer()] that resolves, every type of its entity items
    naming a bucket ([keyed]), the bucket of every type value has grown by
    exactly the number of entity items of that type and by their total
    serialized size, and a type has a bucket exactly when it had one before
    or some entity item carries it. No other stage gets or changes
    aggregates: only the entities are counted by type. *)
Theorem entity_buckets eng w r w' :
  forallb (keyed_item "type") (stream_items entities eng) = true ->
  transfer eng w = (Returned r, w') ->
  (forall v,
     let typed := filter (valued "type" v) (stream_items entities eng) in
     b_count (bucket_of (transferProgress w') entities v)
     = b_count (bucket_of (transferProgress w) entities v) + length typed /\
     b_bytes (bucket_of (transferProgress w') entities v)
     = b_bytes (bucket_of (transferProgress w) entities v)
       + total_length typed /\
     (is_Some (buckets_of (transferProgress w') entities !! v)
      <-> is_Some (buckets_of (transferProgress w) entities !! v)
          \/ exists data,
               data ∈ stream_items entities eng /\ valued "type" v data)) /\
  (forall s,
     s <> entities ->
     aggregates (entry_of (transferProgress w') s)
     = aggregates (entry_of (transferProgress w) s)).
Proof.
  intros Hitems Hrun. apply transfer_returned in Hrun as [-> _].
  rewrite after_call_order. split.
  - intros v. cbn zeta. unfold bucket_of.
    rewrite !buckets_of_record_all_ne by discriminate.
    pose proof (record_all_bucket entities "type"
                  (stream_items entities eng)
                  (record_all schemas None (stream_items schemas eng)
                     (transferProgress w)) v eq_refl Hitems) as H.
    cbn zeta in H. unfold bucket_of in H.
    rewrite (buckets_of_record_all_ne schemas) in H by discriminate.
    exact H.
  - intros s Hs.
    rewrite !aggregates_record_all_unkeyed.
    rewrite entry_of_record_all_ne by exact Hs.
    apply aggregates_record_all_unkeyed.
Qed.

Lemma entity_buckets_witness :
  let eng := sample_engine "exact" [] "1.2.3" "1.2.3" in
  let tp' := transferProgress (snd (transfer eng initial)) in
  forallb (keyed_item "type") (stream_items entities eng) = true /\
  fst (transfer eng initial)
  = Returned {| source := "source results";
                destination := "destination results" |} /\
  b_count (bucket_of tp' entities "api::article.article") = 2 /\
  b_bytes (bucket_of tp' entities "api::article.article") = 42 /\
  aggregates (entry_of tp' links) = None.
Proof.
  cbn zeta.
  assert (Hitems :
    forallb (keyed_item "type")
      (stream_items entities (sample_engine "exact" [] "1.2.3" "1.2.3")) = true)
    by (vm_compute; reflexivity).
  assert (Hrun :
    transfer (sample_engine "exact" [] "1.2.3" "1.2.3") initial
    = (Returned {| source := "source results";
                   destination := "destination results" |},
       snd (transfer (sample_engine "exact" [] "1.2.3" "1.2.3") initial)))
    by (vm_compute; reflexivity).
  destruct (entity_buckets _ _ _ _ Hitems Hrun) as [Hbucket Hother].
  destruct (Hbucket "api::article.article") as (Hcount & Hbytes & _).
  split; [exact Hitems|]. split; [vm_compute; reflexivity|].
  rewrite Hcount, Hbytes, (Hother links) by discriminate.
  repeat split; vm_compute; reflexivity.
Defined.
